(** * SimpleShell: a shallow embedding of
      src/modules/utils/simpleshell/SimpleShell.cpp

    The development follows the layout of the C++ file: the command table and
    its dispatcher, the heap walk behind [mem], the path resolver and the
    session state ([current_path], [reset_delay_secs]), and the command
    handlers the properties below talk about.

    Conventions.
    - [std::string] is [string]; [s.c_str()] handed to a C function is the
      prefix of [s] before its first NUL byte ([c_str]).
    - [uint32_t] is a [Z] reduced with [wrap32] after every operation.
    - [int] counters are [Z]; they stay exact as long as a file has fewer
      than 2^31 bytes.
    - What a handler does to the outside world is a chronological list of
      [effect]s: every [stream->printf] is recorded with its format string
      and arguments, every [stream->puts] with the text it is given.
    - Functions the file calls but does not define ([get_checksum],
      [get_arguments], [shift_parameter], the C library, the file system,
      the public-data bus) are Section variables. *)

From Stdlib Require Import ZArith List String Ascii Bool Lia Sorted.
From Stdlib Require PrimFloat Uint63.
Import ListNotations.

Local Open Scope string_scope.
Local Open Scope list_scope.
Local Open Scope Z_scope.

(** ** Strings and the output stream *)

(** [s[0]]: reading position [size()] of a [std::string] yields the NUL
    terminator. *)
Definition char0 (s : string) : ascii :=
  match s with
  | EmptyString => "000"%char
  | String c _ => c
  end.

(** [s.c_str()] as a C string: the bytes before the first NUL. *)
Fixpoint c_str (s : string) : string :=
  match s with
  | EmptyString => EmptyString
  | String c r => if Ascii.eqb c "000" then EmptyString else String c (c_str r)
  end.

(** The last character of a non-empty string, [s[s.length() - 1]]; on the
    empty string the index wraps to [SIZE_MAX] and the read is undefined. *)
Fixpoint last_char (s : string) : option ascii :=
  match s with
  | EmptyString => None
  | String c EmptyString => Some c
  | String _ r => last_char r
  end.

(** [string(n, c)] *)
Fixpoint replicate (n : nat) (c : ascii) : string :=
  match n with
  | O => EmptyString
  | S k => String c (replicate k c)
  end.

(** A [double] is an IEEE 754 binary64 number. *)
Definition double : Type := PrimFloat.float.

(** The arguments of a [printf]: [%s], [%lu] / [%lX], [%f]. *)
Inductive printf_arg : Type :=
| ArgS (s : string)
| ArgU (n : Z)
| ArgF (x : double).

(** Format strings are kept as the source writes them, escapes unexpanded. *)
Inductive effect : Type :=
| Printf (fmt : string) (args : list printf_arg)
| Puts (s : string)
| Closedir (path : string)
| Fclose (path : string)
| Remove (path : string)
| SetValue (cs1 cs2 : Z) (value : double)
| SystemReset (dfu : bool).

(** ** Session state *)

Record SimpleShell : Type := mkShell {
  current_path : string;
  reset_delay_secs : Z
}.

Definition set_current_path (sh : SimpleShell) (p : string) : SimpleShell :=
  {| current_path := p; reset_delay_secs := reset_delay_secs sh |}.

Definition set_reset_delay_secs (sh : SimpleShell) (n : Z) : SimpleShell :=
  {| current_path := current_path sh; reset_delay_secs := n |}.

(** [on_module_loaded] *)
Definition on_module_loaded : SimpleShell :=
  {| current_path := "/"; reset_delay_secs := 0 |}.

(** [on_second_tick] *)
Definition on_second_tick (sh : SimpleShell) : SimpleShell * list effect :=
  if 0 <? reset_delay_secs sh then
    let d := reset_delay_secs sh - 1 in
    (set_reset_delay_secs sh d,
     if d =? 0 then [SystemReset false] else [])
  else (sh, []).

(** ** Path resolver *)

(** [absolute_from_relative] *)
Definition absolute_from_relative (sh : SimpleShell) (path : string) : string :=
  if Ascii.eqb (char0 path) "/" then path
  else if Ascii.eqb (char0 path) "." then current_path sh
  else (current_path sh ++ path)%string.

(** ** Session commands *)

Section Session.

(** [opendir(p) != NULL] for the C string [p]. *)
Variable opendir : string -> bool.

(** [cd_command].  [None] stands for the undefined read of
    [folder[folder.length() - 1]] on an empty [folder]. *)
Definition cd_command (sh : SimpleShell) (parameters : string)
  : option (SimpleShell * list effect) :=
  let folder := absolute_from_relative sh parameters in
  match last_char folder with
  | None => None
  | Some c =>
      let folder := if Ascii.eqb c "/" then folder else (folder ++ "/")%string in
      if opendir (c_str folder) then
        Some (set_current_path sh folder, [Closedir (c_str folder)])
      else
        Some (sh, [Printf "Could not open directory %s \r\n" [ArgS (c_str folder)]])
  end.

(** [pwd_command] *)
Definition pwd_command (sh : SimpleShell) (parameters : string)
  : SimpleShell * list effect :=
  (sh, [Printf "%s\r\n" [ArgS (c_str (current_path sh))]]).

(** [reset_command] *)
Definition reset_command (sh : SimpleShell) (parameters : string)
  : SimpleShell * list effect :=
  (set_reset_delay_secs sh 5,
   [Printf "Smoothie out. Peace. Rebooting in 5 seconds...\r\n" []]).

(** The inputs that read or write the session state: the periodic tick
    and the console commands [cd], [pwd] and [reset]. *)
Inductive input : Type :=
| SecondTick
| ConsoleCd (parameters : string)
| ConsolePwd (parameters : string)
| ConsoleReset (parameters : string).

Definition step (sh : SimpleShell) (i : input)
  : option (SimpleShell * list effect) :=
  match i with
  | SecondTick => Some (on_second_tick sh)
  | ConsoleCd p => cd_command sh p
  | ConsolePwd p => Some (pwd_command sh p)
  | ConsoleReset p => Some (reset_command sh p)
  end.

Fixpoint run (sh : SimpleShell) (ins : list input)
  : option (SimpleShell * list effect) :=
  match ins with
  | [] => Some (sh, [])
  | i :: rest =>
      match step sh i with
      | None => None
      | Some (sh1, out1) =>
          match run sh1 rest with
          | None => None
          | Some (sh2, out2) => Some (sh2, out1 ++ out2)
          end
      end
  end.

End Session.

(** Counting in a run: the ticks among the inputs, the device resets among
    the effects, and whether a [reset] command occurs. *)
Definition is_tick (i : input) : bool :=
  match i with SecondTick => true | _ => false end.

Definition is_reset_command (i : input) : bool :=
  match i with ConsoleReset _ => true | _ => false end.

Definition is_device_reset (e : effect) : bool :=
  match e with SystemReset false => true | _ => false end.

Definition ticks (ins : list input) : nat := List.length (filter is_tick ins).

Definition device_resets (out : list effect) : nat :=
  List.length (filter is_device_reset out).

Definition ends_with_slash (s : string) : Prop := last_char s = Some "/"%char.

(** The path [cd] tries to open: the resolved path, with a ['/'] appended
    unless it already ends in one. *)
Definition with_trailing_slash (s : string) : string :=
  match last_char s with
  | Some "/"%char => s
  | _ => (s ++ "/")%string
  end.

(** The countdown property of a run that starts with a [reset] command and
    goes on with [ins]: at every point of the run, the device reset has
    fired once if at least five ticks have followed the command, and not at
    all otherwise.  So it fires on the fifth tick, on no earlier and on no
    later one. *)
Definition fires_on_fifth_tick (opendir : string -> bool) (sh : SimpleShell)
  (parameters : string) (ins : list input) : Prop :=
  forall n : nat,
    let so_far := firstn n ins in
    exists sh1 out,
      run opendir sh (ConsoleReset parameters :: so_far) = Some (sh1, out)
      /\ device_resets out =
           (if (5 <=? ticks so_far)%nat then 1%nat else 0%nat).

(** The ticks of a run that are the fifth tick since the most recent
    [reset] command, [since] being the number of ticks already counted
    since that command. *)
Fixpoint fifth_ticks (since : nat) (ins : list input) : nat :=
  match ins with
  | [] => 0%nat
  | SecondTick :: rest =>
      ((if (S since =? 5)%nat then 1 else 0) + fifth_ticks (S since) rest)%nat
  | ConsoleReset _ :: rest => fifth_ticks 0 rest
  | _ :: rest => fifth_ticks since rest
  end.

(** The reply of [reset_command]. *)
Definition reset_reply : effect :=
  Printf "Smoothie out. Peace. Rebooting in 5 seconds...\r\n" [].

(** ** Command table and dispatcher *)

(** The member functions a table entry can point to. *)
Inductive PFUNC : Type :=
| fn_ls | fn_cd | fn_pwd | fn_cat | fn_rm | fn_reset | fn_dfu | fn_break
| fn_help | fn_version | fn_mem | fn_get | fn_set_temp | fn_test.

(** [ptentry_t]; a null [pfunc] is [None]. *)
Record ptentry_t : Type := mkEntry {
  command_cs : Z;
  pfunc : option PFUNC
}.

Definition space : ascii := " "%char.
Definition CR : ascii := "013"%char.
Definition LF : ascii := "010"%char.

Fixpoint mem_char (c : ascii) (set : string) : bool :=
  match set with
  | EmptyString => false
  | String d r => Ascii.eqb c d || mem_char c r
  end.

(** [s.substr(0, s.find_first_of(set))]: the characters of [s] before the
    first one that belongs to [set], all of [s] when there is none
    ([find_first_of] then returns [npos]). *)
Fixpoint substr_to_first_of (set : string) (s : string) : string :=
  match s with
  | EmptyString => EmptyString
  | String c r =>
      if mem_char c set then EmptyString
      else String c (substr_to_first_of set r)
  end.

Section Dispatch.

(** The compile-time [CHECKSUM] macro and the run-time [get_checksum]. *)
Variable CHECKSUM : string -> Z.
Variable get_checksum : string -> Z.
(** [get_arguments]: the text after the command keyword. *)
Variable get_arguments : string -> string.

(** What a handler call [(this->*fnc)(args, stream)] does to the shell,
    its stream and the device. *)
Variable world : Type.
Variable call : PFUNC -> string -> world -> world.

(** [SimpleShell::commands_table] *)
Definition commands_table : list ptentry_t :=
  [ mkEntry (CHECKSUM "ls") (Some fn_ls);
    mkEntry (CHECKSUM "cd") (Some fn_cd);
    mkEntry (CHECKSUM "pwd") (Some fn_pwd);
    mkEntry (CHECKSUM "cat") (Some fn_cat);
    mkEntry (CHECKSUM "rm") (Some fn_rm);
    mkEntry (CHECKSUM "reset") (Some fn_reset);
    mkEntry (CHECKSUM "dfu") (Some fn_dfu);
    mkEntry (CHECKSUM "break") (Some fn_break);
    mkEntry (CHECKSUM "help") (Some fn_help);
    mkEntry (CHECKSUM "version") (Some fn_version);
    mkEntry (CHECKSUM "mem") (Some fn_mem);
    mkEntry (CHECKSUM "get") (Some fn_get);
    mkEntry (CHECKSUM "set_temp") (Some fn_set_temp);
    mkEntry (CHECKSUM "test") (Some fn_test);
    mkEntry 0 None ].

(** [parse_command].  The loop runs while [p->pfunc != NULL]; an array
    without a null entry would be read past its end ([None]). *)
Fixpoint parse_command (table : list ptentry_t) (cs : Z) (args : string)
  (w : world) : option (world * bool) :=
  match table with
  | [] => None
  | p :: rest =>
      match pfunc p with
      | None => Some (w, false)
      | Some fnc =>
          if cs =? command_cs p then Some (call fnc args w, true)
          else parse_command rest cs args w
      end
  end.

(** The command keyword of a line, as [on_console_line_received] cuts it. *)
Definition first_token (line : string) : string :=
  substr_to_first_of (String space (String CR (String LF EmptyString))) line.

(** [on_console_line_received] *)
Definition on_console_line_received (table : list ptentry_t)
  (message : string) (w : world) : option world :=
  if Ascii.eqb (char0 message) ";" then Some w
  else
    let possible_command := message in
    let check_sum := get_checksum (first_token possible_command) in
    match parse_command table check_sum (get_arguments possible_command) w with
    | None => None
    | Some (w1, _) => Some w1
    end.

(** The entries the scan can reach: those before the first null handler. *)
Fixpoint live_entries (table : list ptentry_t) : list (Z * PFUNC) :=
  match table with
  | [] => []
  | p :: rest =>
      match pfunc p with
      | None => []
      | Some fnc => (command_cs p, fnc) :: live_entries rest
      end
  end.

Definition has_sentinel (table : list ptentry_t) : Prop :=
  exists p, In p table /\ pfunc p = None.

(** Table lookup as the specification words it: the entry whose
    fingerprint equals [cs], the first one in table order. *)
Definition lookup (table : list ptentry_t) (cs : Z) : option (Z * PFUNC) :=
  find (fun e => cs =? fst e) (live_entries table).

End Dispatch.

(** A fingerprint function for the examples, a Fletcher checksum over the
    characters of the keyword; the firmware's own [get_checksum] and
    [CHECKSUM] are defined outside this file and stay parameters of every
    statement. *)
Fixpoint fletcher (s : string) (sum1 sum2 : Z) : Z :=
  match s with
  | EmptyString => Z.lor (Z.shiftl sum2 8) sum1
  | String c r =>
      let sum1 := (sum1 + Z.of_N (N_of_ascii c)) mod 255 in
      fletcher r sum1 ((sum2 + sum1) mod 255)
  end.

Definition example_checksum (s : string) : Z := fletcher s 0 0.

(** The text after the first space, for the examples. *)
Fixpoint example_arguments (s : string) : string :=
  match s with
  | EmptyString => EmptyString
  | String c r => if Ascii.eqb c space then r else example_arguments r
  end.

(** A world that only logs the handler calls made. *)
Definition call_log : Type := list (PFUNC * string).

Definition log_call (fnc : PFUNC) (args : string) (w : call_log) : call_log :=
  w ++ [(fnc, args)].

(** ** Heap walk *)

Definition wrap32 (z : Z) : Z := z mod 2 ^ 32.

(** [*(uint32_t * )a]: the 32-bit word the memory holds at address [a]. *)
Definition load32 (mem : Z -> Z) (a : Z) : Z := wrap32 (mem a).

(** [(p + 7) & ~7] on [uint32_t]. *)
Definition align8 (p : Z) : Z := Z.land (wrap32 (p + 7)) (wrap32 (Z.lnot 7)).

(** The local variables of [heapWalk] that live across iterations. *)
Record walk : Type := mkWalk {
  chunkNumber : Z;
  chunkCurr : Z;
  freeCurr : Z;
  freeSize : Z;
  usedSize : Z
}.

Definition chunk_fmt : string :=
  "  Chunk: %lu  Address: 0x%08lX  Size: %lu  %s\n".

Definition free_marker (isChunkFree : bool) : string :=
  if isChunkFree then "CHUNK FREE" else "".

(** One iteration of the [while] loop of [heapWalk]. *)
Definition heapWalk_body (mem : Z -> Z) (verbose : bool) (st : walk)
  : walk * list effect :=
  let chunkSize := load32 mem (chunkCurr st) in
  let chunkNext := wrap32 (chunkCurr st + chunkSize) in
  let isChunkFree := chunkCurr st =? freeCurr st in
  let freeCurr1 :=
    if isChunkFree then load32 mem (wrap32 (freeCurr st + 4)) else freeCurr st in
  let chunkCurr1 := align8 (wrap32 (chunkCurr st + 4)) in
  let chunkSize1 := wrap32 (chunkSize - 8) in
  let out :=
    if verbose then
      [Printf chunk_fmt
         [ArgU (chunkNumber st); ArgU chunkCurr1; ArgU chunkSize1;
          ArgS (free_marker isChunkFree)]]
    else [] in
  ({| chunkNumber := wrap32 (chunkNumber st + 1);
      chunkCurr := chunkNext;
      freeCurr := freeCurr1;
      freeSize := if isChunkFree then wrap32 (freeSize st + chunkSize1)
                  else freeSize st;
      usedSize := if isChunkFree then usedSize st
                  else wrap32 (usedSize st + chunkSize1) |},
   out).

(** The [while (chunkCurr < heapEnd)] loop; [None] when [fuel] iterations
    do not reach the end of the heap. *)
Fixpoint heapWalk_loop (fuel : nat) (mem : Z -> Z) (heapEnd : Z)
  (verbose : bool) (st : walk) : option (walk * list effect) :=
  if chunkCurr st <? heapEnd then
    match fuel with
    | O => None
    | S fuel1 =>
        let (st1, out1) := heapWalk_body mem verbose st in
        match heapWalk_loop fuel1 mem heapEnd verbose st1 with
        | None => None
        | Some (st2, out2) => Some (st2, out1 ++ out2)
        end
    end
  else Some (st, []).

(** [heapWalk].  [end_addr] is [(uint32_t)&__end__], [malloc_free_list] the
    value of [__malloc_free_list] and [sbrk0] the result of [_sbrk(0)]. *)
Definition heapWalk (fuel : nat) (mem : Z -> Z)
  (end_addr malloc_free_list sbrk0 : Z) (verbose : bool)
  : option (list effect) :=
  let st0 := {| chunkNumber := 1; chunkCurr := end_addr;
                freeCurr := malloc_free_list; freeSize := 0; usedSize := 0 |} in
  let heapEnd := sbrk0 in
  let head := Printf "Used Heap Size: %lu\n" [ArgU (wrap32 (heapEnd - chunkCurr st0))] in
  match heapWalk_loop fuel mem heapEnd verbose st0 with
  | None => None
  | Some (st, out) =>
      Some (head :: out ++
            [Printf "Allocated: %lu, Free: %lu\r\n"
               [ArgU (usedSize st); ArgU (freeSize st)]])
  end.

(** *** The allocator's invariants *)

(** Chunks (address, raw size) lie back to back from [a] to [heapEnd]; the
    raw size of a chunk is the word at its address. *)
Inductive laid_out (mem : Z -> Z) (heapEnd : Z) : Z -> list (Z * Z) -> Prop :=
| laid_out_end : laid_out mem heapEnd heapEnd []
| laid_out_chunk : forall a l,
    a < heapEnd ->
    laid_out mem heapEnd (a + load32 mem a) l ->
    laid_out mem heapEnd a ((a, load32 mem a) :: l).

(** The free list from [head]: each free chunk holds the address of the next
    one in its second word; a null pointer ends the list. *)
Inductive free_list (mem : Z -> Z) : Z -> list Z -> Prop :=
| free_list_null : free_list mem 0 []
| free_list_chunk : forall a l,
    a <> 0 ->
    free_list mem (load32 mem (wrap32 (a + 4))) l ->
    free_list mem a (a :: l).

(** The heap proper: it lies in the 32-bit address space, its chunks are
    contiguous from heap start to heap end, and every raw size includes the
    8-byte overhead. *)
Record heap_layout (mem : Z -> Z) (heapStart heapEnd : Z)
  (chunks : list (Z * Z)) : Prop := mkHeapLayout {
  layout_start : 0 <= heapStart;
  layout_end : heapEnd < 2 ^ 32;
  layout_contiguous : laid_out mem heapEnd heapStart chunks;
  layout_overhead : Forall (fun c => 8 <= snd c) chunks
}.

(** The free list: it links chunks of the heap, strictly ascending by
    address, and ends with the null pointer, which is no chunk address. *)
Record free_list_inv (mem : Z -> Z) (heapStart freeHead : Z)
  (chunks : list (Z * Z)) (fl : list Z) : Prop := mkFreeListInv {
  free_nonnull : 0 < heapStart;
  free_linked : free_list mem freeHead fl;
  free_sorted : StronglySorted Z.lt fl;
  free_chunks : incl fl (map fst chunks)
}.

(** *** What the walk is expected to report *)

(** The adjusted size of a chunk: raw size minus the 8-byte overhead. *)
Definition adjusted (c : Z * Z) : Z := snd c - 8.

(** The chunks with their free flag, as the two cursors of the
    specification find it: a chunk is free when its address is the
    free-list cursor, which then moves to the chunk's next-free pointer. *)
Fixpoint classify (mem : Z -> Z) (freeCursor : Z) (chunks : list (Z * Z))
  : list (Z * Z * bool) :=
  match chunks with
  | [] => []
  | c :: rest =>
      let free := fst c =? freeCursor in
      (c, free)
      :: classify mem
           (if free then load32 mem (wrap32 (freeCursor + 4)) else freeCursor)
           rest
  end.

(** The chunks with their free flag, read off the free list. *)
Definition is_free (fl : list Z) (c : Z * Z) : bool :=
  existsb (Z.eqb (fst c)) fl.

Definition by_free_list (fl : list Z) (chunks : list (Z * Z))
  : list (Z * Z * bool) :=
  map (fun c => (c, is_free fl c)) chunks.

Definition sum_adjusted (report : list (Z * Z * bool)) : Z :=
  fold_right (fun r acc => adjusted (fst r) + acc) 0 report.

Definition free_total (report : list (Z * Z * bool)) : Z :=
  sum_adjusted (filter snd report).

Definition used_total (report : list (Z * Z * bool)) : Z :=
  sum_adjusted (filter (fun r => negb (snd r)) report).

(** The verbose lines, one per chunk, numbered from [n]. *)
Fixpoint chunk_lines (n : Z) (report : list (Z * Z * bool)) : list effect :=
  match report with
  | [] => []
  | (c, free) :: rest =>
      Printf chunk_fmt
        [ArgU n; ArgU (align8 (fst c + 4)); ArgU (adjusted c);
         ArgS (free_marker free)]
      :: chunk_lines (wrap32 (n + 1)) rest
  end.

(** The verbose lines when [verbose] is set, nothing otherwise. *)
Definition lines_if_verbose (verbose : bool) (n : Z)
  (report : list (Z * Z * bool)) : list effect :=
  if verbose then chunk_lines n report else [].

(** The sizes printed by the verbose lines of a walk. *)
Definition printed_size (e : effect) : Z :=
  match e with
  | Printf _ [_; _; ArgU size; _] => size
  | _ => 0
  end.

Definition sum_printed (out : list effect) : Z :=
  fold_right (fun e acc => printed_size e + acc) 0 out.

(** A small heap for the examples: four chunks from address 4096 to 4184,
    the second and the fourth on the free list. *)
Definition example_mem (a : Z) : Z :=
  if a =? 4096 then 16
  else if a =? 4112 then 24
  else if a =? 4116 then 4152
  else if a =? 4136 then 16
  else if a =? 4152 then 32
  else 0.

Definition example_chunks : list (Z * Z) :=
  [(4096, 16); (4112, 24); (4136, 16); (4152, 32)].

Definition example_free_list : list Z := [4112; 4152].

(** ** cat *)

(** The [while ((c = fgetc(lp)) != EOF)] loop of [cat_command] over the
    bytes still to be read, with the locals [buffer], [newlines] and
    [linecnt].  At end of file the loop is left and [buffer] is dropped. *)
Fixpoint cat_loop (limit : Z) (rest : string) (buffer : string)
  (newlines linecnt : Z) : list effect :=
  match rest with
  | EmptyString => []
  | String c rest1 =>
      let buffer1 := (buffer ++ String c EmptyString)%string in
      let is_newline := Ascii.eqb c LF in
      (* [char(c) == '\n' || ++linecnt > 80]: no increment on a newline *)
      let linecnt1 := if is_newline then linecnt else linecnt + 1 in
      let flush := is_newline || (80 <? linecnt1) in
      let newlines1 := if flush then newlines + 1 else newlines in
      let out := if flush then [Puts (c_str buffer1)] else [] in
      let buffer2 := if flush then EmptyString else buffer1 in
      let linecnt2 := if flush && (80 <? linecnt1) then 0 else linecnt1 in
      if newlines1 =? limit then out
      else out ++ cat_loop limit rest1 buffer2 newlines1 linecnt2
  end.

Section Cat.

(** [shift_parameter]: the next token and what is left of the parameters. *)
Variable shift_parameter : string -> string * string.
(** [strtol(s, &e, 10)]: the value and the number of characters consumed,
    [e - s]. *)
Variable strtol : string -> Z * nat.
(** [fopen(name, "r")]: the bytes of the file, or [None] for [NULL]. *)
Variable fopen : string -> option string.

(** The [limit] computed from the second parameter. *)
Definition cat_limit (limit_paramater : string) : Z :=
  match limit_paramater with
  | EmptyString => -1
  | _ =>
      let (v, consumed) := strtol (c_str limit_paramater) in
      match consumed with
      | O => -1
      | S _ => v
      end
  end.

(** [cat_command] *)
Definition cat_command (sh : SimpleShell) (parameters : string)
  : list effect :=
  let (tok, parameters1) := shift_parameter parameters in
  let filename := absolute_from_relative sh tok in
  let (limit_paramater, _) := shift_parameter parameters1 in
  let limit := cat_limit limit_paramater in
  match fopen (c_str filename) with
  | None => [Printf "File not found: %s\r\n" [ArgS (c_str filename)]]
  | Some contents =>
      cat_loop limit contents EmptyString 0 0 ++ [Fclose (c_str filename)]
  end.

End Cat.

(** The bytes a list of effects writes with [puts], and the texts flushed. *)
Definition flushed (out : list effect) : list string :=
  flat_map (fun e => match e with Puts s => [s] | _ => [] end) out.

Definition emitted (out : list effect) : string :=
  fold_right String.append EmptyString (flushed out).

(** No byte of [s] is a newline. *)
Fixpoint no_newline (s : string) : bool :=
  match s with
  | EmptyString => true
  | String c r => negb (Ascii.eqb c LF) && no_newline r
  end.

(** [n] lines of [len] times the character [c], each ended by a newline. *)
Definition text_line (len : nat) (c : ascii) : string :=
  (replicate len c ++ String LF EmptyString)%string.

Fixpoint text_lines (n len : nat) (c : ascii) : string :=
  match n with
  | O => EmptyString
  | S k => (text_line len c ++ text_lines k len c)%string
  end.

(** ** rm and the lifetime of string objects *)

(** A string object and whether its buffer still exists. *)
Record strobj : Type := mkStr {
  chars : string;
  alive : bool
}.

(** The string objects created so far; a [const char *] obtained from
    [c_str()] is the index of the object whose buffer it points into. *)
Record lifetimes : Type := mkLifetimes {
  objects : list strobj;
  trace : list effect
}.

Inductive outcome (A : Type) : Type :=
| Done (a : A) (st : lifetimes)
| UseAfterDestroy (ptr : nat) (st : lifetimes).

Arguments Done {A} a st.
Arguments UseAfterDestroy {A} ptr st.

Definition M (A : Type) : Type := lifetimes -> outcome A.

Definition ret {A : Type} (a : A) : M A := fun st => Done a st.

Definition bind {A B : Type} (m : M A) (k : A -> M B) : M B :=
  fun st =>
    match m st with
    | Done a st1 => k a st1
    | UseAfterDestroy p st1 => UseAfterDestroy p st1
    end.

Notation "x <- m ;; k" := (bind m (fun x => k))
  (at level 61, m at next level, right associativity).
Notation "m ;;; k" := (bind m (fun _ => k))
  (at level 61, right associativity).

(** Construct a string object holding [s]. *)
Definition construct (s : string) : M nat :=
  fun st =>
    Done (List.length (objects st))
         {| objects := objects st ++ [mkStr s true]; trace := trace st |}.

Fixpoint kill (p : nat) (l : list strobj) : list strobj :=
  match l, p with
  | [], _ => []
  | o :: r, O => mkStr (chars o) false :: r
  | o :: r, S q => o :: kill q r
  end.

(** Run the destructor of object [p]. *)
Definition destroy (p : nat) : M unit :=
  fun st => Done tt {| objects := kill p (objects st); trace := trace st |}.

(** Read the C string behind pointer [p]. *)
Definition read_c_str (p : nat) : M string :=
  fun st =>
    match nth_error (objects st) p with
    | Some o => if alive o then Done (c_str (chars o)) st
                else UseAfterDestroy p st
    | None => UseAfterDestroy p st
    end.

Definition emit (e : effect) : M unit :=
  fun st => Done tt {| objects := objects st; trace := trace st ++ [e] |}.

Definition start : lifetimes := {| objects := []; trace := [] |}.

Section Files.

Variable shift_parameter : string -> string * string.
(** [remove(path)]: 0 when the file was deleted. *)
Variable remove : string -> Z.
(** [opendir] and the names [readdir] then yields; [lc]. *)
Variable opendir_entries : string -> option (list string).
Variable lc : string -> string.

(** [rm_command].  The string returned by [absolute_from_relative] is a
    temporary of the initialiser of [fn]; it is destroyed at the end of
    that full-expression, before the next statement. *)
Definition rm_command (sh : SimpleShell) (parameters : string) : M unit :=
  tmp <- construct (absolute_from_relative sh (fst (shift_parameter parameters))) ;;
  let fn := tmp in
  destroy tmp ;;;
  path <- read_c_str fn ;;
  emit (Remove path) ;;;
  if remove path =? 0 then ret tt
  else
    text <- read_c_str fn ;;
    emit (Printf "Could not delete %s \r\n" [ArgS text]).

(** [ls_command].  The resolved path is the named local [folder], which
    lives until the function returns. *)
Definition ls_command (sh : SimpleShell) (parameters : string) : M unit :=
  folder <- construct (absolute_from_relative sh parameters) ;;
  path <- read_c_str folder ;;
  match opendir_entries path with
  | Some names =>
      fold_right
        (fun name k => emit (Printf "%s\r\n" [ArgS (c_str (lc name))]) ;;; k)
        (emit (Closedir path)) names
  | None =>
      text <- read_c_str folder ;;
      emit (Printf "Could not open directory %s \r\n" [ArgS text])
  end ;;;
  destroy folder.

End Files.

(** ** set_temp *)

Section DataBridge.

Variable shift_parameter : string -> string * string.
Variable get_checksum : string -> Z.
Variable temperature_control_checksum : Z.
(** The conversion [strtod] performs on a C string, [None] when the string
    has no prefix of the expected form. *)
Variable strtod_conversion : string -> option double.
(** [public_data->set_value(cs1, cs2, &t)]: whether a module took the
    request. *)
Variable set_value : Z -> Z -> double -> bool.

(** [strtod(s, NULL)]: zero when no conversion can be performed. *)
Definition strtod (s : string) : double :=
  match strtod_conversion s with
  | Some x => x
  | None => PrimFloat.zero
  end.

(** [set_temp_command] *)
Definition set_temp_command (parameters : string) : list effect :=
  let (type, parameters1) := shift_parameter parameters in
  let (temp, _) := shift_parameter parameters1 in
  let t := match temp with
           | EmptyString => PrimFloat.zero
           | _ => strtod (c_str temp)
           end in
  let ok := set_value temperature_control_checksum (get_checksum type) t in
  SetValue temperature_control_checksum (get_checksum type) t ::
  (if ok then
     [Printf "%s temp set to: %3.1f\r\n" [ArgS (c_str type); ArgF t]]
   else
     [Printf "%s is not a known temperature device\r\n" [ArgS (c_str type)]]).

End DataBridge.

(** Stand-ins for the examples.  [example_shift_parameter] cuts at the
    first space; [example_strtod_conversion] converts a prefix of decimal
    digits and nothing else; [example_set_value] knows one device, [bed]. *)
Fixpoint example_shift_parameter (s : string) : string * string :=
  match s with
  | EmptyString => (EmptyString, EmptyString)
  | String c r =>
      if Ascii.eqb c space then (EmptyString, r)
      else let (tok, rest) := example_shift_parameter r in (String c tok, rest)
  end.

Definition digit_value (c : ascii) : option Z :=
  let n := Z.of_N (N_of_ascii c) in
  if (48 <=? n) && (n <=? 57) then Some (n - 48) else None.

Fixpoint digits_value (s : string) (acc : Z) : Z :=
  match s with
  | EmptyString => acc
  | String c r =>
      match digit_value c with
      | Some d => digits_value r (10 * acc + d)
      | None => acc
      end
  end.

Definition example_strtod_conversion (s : string) : option double :=
  match digit_value (char0 s) with
  | Some _ => Some (PrimFloat.of_uint63 (Uint63.of_Z (digits_value s 0)))
  | None => None
  end.

Definition example_set_value (cs1 cs2 : Z) (value : double) : bool :=
  cs2 =? example_checksum "bed".

(** ** Further handlers *)

(** [s.find_first_of(set) != string::npos] *)
Fixpoint contains_any (set : string) (s : string) : bool :=
  match s with
  | EmptyString => false
  | String c r => mem_char c set || contains_any set r
  end.

Section Mem.

Variable shift_parameter : string -> string * string.

(** [mem_command].  [g_maximumHeapAddress] is the extern of that name;
    both calls of [_sbrk(0)] return [sbrk0]. *)
Definition mem_command (fuel : nat) (mem : Z -> Z)
  (end_addr malloc_free_list sbrk0 g_maximumHeapAddress : Z)
  (parameters : string) : option (list effect) :=
  let verbose := contains_any "Vv" (fst (shift_parameter parameters)) in
  let heap := sbrk0 in
  let m := wrap32 (g_maximumHeapAddress - heap) in
  match heapWalk fuel mem end_addr malloc_free_list sbrk0 verbose with
  | None => None
  | Some out => Some (Printf "Unused Heap: %lu bytes\r\n" [ArgU m] :: out)
  end.

End Mem.

(** The fields of a [Gcode] that [on_gcode_received] reads. *)
Record Gcode : Type := mkGcode {
  command : string;
  has_m : bool;
  m : Z
}.

Section GcodeReceived.

Variable get_arguments : string -> string.
Variable shift_parameter : string -> string * string.
Variable remove : string -> Z.
Variable opendir_entries : string -> option (list string).
Variable lc : string -> string.

(** [on_gcode_received]; the result tells whether [mark_as_taken] was
    called. *)
Definition on_gcode_received (sh : SimpleShell) (gcode : Gcode) : M bool :=
  let args := get_arguments (command gcode) in
  if has_m gcode then
    if m gcode =? 20 then
      emit (Printf "Begin file list\r\n" []) ;;;
      ls_command opendir_entries lc sh "/sd" ;;;
      emit (Printf "End file list\r\n" []) ;;;
      ret true
    else if m gcode =? 30 then
      rm_command shift_parameter remove sh ("/sd/" ++ args)%string ;;;
      ret true
    else ret false
  else ret false.

End GcodeReceived.

(** The choice of the MCU name in [version_command]. *)
Definition mcu_name (dev : Z) : string :=
  if Z.land dev 1048576 =? 0 then "LPC1768" else "LPC1769".

(** [version_command]; [build] and [build_date] are what [Version] returns,
    [dev] the result of [getDeviceType]. *)
Definition version_command (build build_date : string)
  (dev SystemCoreClock : Z) : list effect :=
  [Printf "Build version: %s, Build date: %s, MCU: %s, System Clock: %ldMHz\r\n"
     [ArgS build; ArgS build_date; ArgS (mcu_name dev);
      ArgU (SystemCoreClock / 1000000)]].

(** ** Vocabulary of the further properties *)

(** The [reset] commands of a run. *)
Definition reset_commands (ins : list input) : nat :=
  List.length (filter is_reset_command ins).

(** A countdown is running. *)
Definition armed (sh : SimpleShell) : nat :=
  if 0 <? reset_delay_secs sh then 1%nat else 0%nat.

(** What holds of every session: the current path starts and ends with
    ['/'], the countdown is between 0 and 5. *)
Definition session_inv (sh : SimpleShell) : Prop :=
  char0 (current_path sh) = "/"%char
  /\ ends_with_slash (current_path sh)
  /\ 0 <= reset_delay_secs sh <= 5.

(** The keywords of [commands_table] with their handlers. *)
Definition command_keywords : list (string * PFUNC) :=
  [ ("ls", fn_ls); ("cd", fn_cd); ("pwd", fn_pwd); ("cat", fn_cat);
    ("rm", fn_rm); ("reset", fn_reset); ("dfu", fn_dfu); ("break", fn_break);
    ("help", fn_help); ("version", fn_version); ("mem", fn_mem);
    ("get", fn_get); ("set_temp", fn_set_temp); ("test", fn_test) ].

(** The characters that end the keyword of a line. *)
Definition delimiters : string :=
  String space (String CR (String LF EmptyString)).

Fixpoint no_delimiter (s : string) : bool :=
  match s with
  | EmptyString => true
  | String c r => negb (mem_char c delimiters) && no_delimiter r
  end.

(** No byte of [s] is NUL. *)
Fixpoint no_nul (s : string) : bool :=
  match s with
  | EmptyString => true
  | String c r => negb (Ascii.eqb c "000") && no_nul r
  end.

(** [s] ends with a newline. *)
Definition ends_with_newline (s : string) : Prop := last_char s = Some LF.

Definition is_fclose (e : effect) : bool :=
  match e with Fclose _ => true | _ => false end.

(** What [ls] writes for the C string [path]. *)
Definition ls_output (opendir_entries : string -> option (list string))
  (lc : string -> string) (path : string) : list effect :=
  match opendir_entries path with
  | Some names =>
      map (fun name => Printf "%s\r\n" [ArgS (c_str (lc name))]) names
      ++ [Closedir path]
  | None => [Printf "Could not open directory %s \r\n" [ArgS path]]
  end.

(** A heap whose first chunk has a zero size word. *)
Definition zero_header_mem (a : Z) : Z := 0.

(** * Properties *)

(** ** Path resolver *)

(** C9: a path token that starts with ['.'] resolves to the current path,
    whatever follows the dot; in particular [".."], [".hidden"] and
    ["./sub"] all resolve to the current path, so neither the parent
    directory nor a dotted relative path is ever produced from them. *)
Theorem absolute_from_relative_dot :
  forall (sh : SimpleShell) (rest : string),
    absolute_from_relative sh (String "." rest) = current_path sh
    /\ absolute_from_relative sh ".." = current_path sh
    /\ absolute_from_relative sh ".hidden" = current_path sh
    /\ absolute_from_relative sh "./sub" = current_path sh
    /\ absolute_from_relative (mkShell "/sd/gcode/" 0) ".." = "/sd/gcode/".
Proof.
  intros sh rest. repeat split; reflexivity.
Qed.

(** ** Change directory *)

Lemma last_char_None : forall s, last_char s = None -> s = EmptyString.
Proof.
  induction s as [|c r IH]; simpl; intros H; [reflexivity|].
  destruct r; [discriminate|]. specialize (IH H). discriminate.
Qed.

Lemma last_char_app_slash :
  forall s, last_char (s ++ "/")%string = Some "/"%char.
Proof.
  induction s as [|c r IH]; simpl; [reflexivity|].
  destruct r; simpl in *; [reflexivity| exact IH].
Qed.

Lemma append_empty : forall a b, (a ++ b)%string = EmptyString -> a = EmptyString.
Proof. intros [|c a] b H; [reflexivity | discriminate]. Qed.

Lemma resolved_not_empty :
  forall sh path,
    current_path sh <> EmptyString ->
    absolute_from_relative sh path <> EmptyString.
Proof.
  intros sh path Hne. unfold absolute_from_relative.
  destruct (Ascii.eqb (char0 path) "/") eqn:E1.
  - destruct path; [discriminate E1 | discriminate].
  - destruct (Ascii.eqb (char0 path) "."); [exact Hne|].
    intros H. apply append_empty in H. contradiction.
Qed.

Lemma with_trailing_slash_ends :
  forall s, s <> EmptyString -> ends_with_slash (with_trailing_slash s).
Proof.
  intros s Hne. unfold ends_with_slash, with_trailing_slash.
  destruct (last_char s) as [c|] eqn:E.
  - destruct (Ascii.eqb_spec c "/") as [->|Hc].
    + exact E.
    + assert (H : last_char (s ++ "/")%string = Some "/"%char)
        by apply last_char_app_slash.
      destruct c as [[] [] [] [] [] [] [] []]; try exact H; congruence.
  - apply last_char_None in E. contradiction.
Qed.

Lemma cd_command_eq :
  forall opendir sh parameters,
    current_path sh <> EmptyString ->
    let folder := with_trailing_slash (absolute_from_relative sh parameters) in
    cd_command opendir sh parameters =
      Some (if opendir (c_str folder)
            then (set_current_path sh folder, [Closedir (c_str folder)])
            else (sh, [Printf "Could not open directory %s \r\n"
                         [ArgS (c_str folder)]])).
Proof.
  intros opendir sh parameters Hne folder.
  pose proof (resolved_not_empty sh parameters Hne) as Hres.
  unfold cd_command. subst folder. unfold with_trailing_slash.
  destruct (last_char (absolute_from_relative sh parameters)) as [c|] eqn:E.
  - destruct (Ascii.eqb_spec c "/") as [->|Hc].
    + destruct (opendir _); reflexivity.
    + destruct c as [[] [] [] [] [] [] [] []];
        try (destruct (opendir _); reflexivity); congruence.
  - apply last_char_None in E. contradiction.
Qed.

(** The current path of a session is never empty: it is ["/"] when the
    module is loaded, and no input makes it empty. *)
Lemma current_path_not_empty :
  forall opendir ins sh,
    current_path sh <> EmptyString ->
    exists sh1 out,
      run opendir sh ins = Some (sh1, out)
      /\ current_path sh1 <> EmptyString.
Proof.
  intros opendir ins. induction ins as [|i rest IH]; intros sh Hne.
  - exists sh, []. split; [reflexivity | exact Hne].
  - assert (Hstep : exists sh1 out,
               step opendir sh i = Some (sh1, out)
               /\ current_path sh1 <> EmptyString).
    { destruct i as [|p|p|p]; simpl.
      - unfold on_second_tick. destruct (0 <? reset_delay_secs sh);
          eexists _, _; (split; [reflexivity | exact Hne]).
      - rewrite (cd_command_eq opendir sh p Hne). cbv zeta.
        destruct (opendir _); eexists _, _; (split; [reflexivity|]); simpl.
        + intros H.
          pose proof (with_trailing_slash_ends _ (resolved_not_empty sh p Hne))
            as He.
          unfold ends_with_slash in He. rewrite H in He. discriminate.
        + exact Hne.
      - eexists _, _. split; [reflexivity | exact Hne].
      - eexists _, _. split; [reflexivity | exact Hne]. }
    destruct Hstep as (sh1 & out1 & Hstep & Hne1).
    destruct (IH sh1 Hne1) as (sh2 & out2 & Hrun & Hne2).
    exists sh2, (out1 ++ out2). split; [|exact Hne2].
    simpl. rewrite Hstep, Hrun. reflexivity.
Qed.

(** C3: [cd] either replaces the current path by the resolved path with a
    trailing ['/'] (the directory opens) or leaves the session untouched and
    prints an error (it does not); after [cd /a] succeeds and
    [cd /nonexistent] fails, [pwd] prints [/a/]. *)
Theorem cd_command_atomic :
  forall (opendir : string -> bool) (sh : SimpleShell) (parameters : string),
    current_path sh <> EmptyString ->
    let folder := with_trailing_slash (absolute_from_relative sh parameters) in
    ends_with_slash folder
    /\ (opendir (c_str folder) = false ->
        cd_command opendir sh parameters =
          Some (sh, [Printf "Could not open directory %s \r\n"
                       [ArgS (c_str folder)]]))
    /\ (opendir (c_str folder) = true ->
        cd_command opendir sh parameters =
          Some (set_current_path sh folder, [Closedir (c_str folder)]))
    /\ (opendir "/a/" = true -> opendir "/nonexistent/" = false ->
        run opendir sh
          [ConsoleCd "/a"; ConsoleCd "/nonexistent"; ConsolePwd EmptyString] =
          Some (set_current_path sh "/a/",
                [Closedir "/a/";
                 Printf "Could not open directory %s \r\n" [ArgS "/nonexistent/"];
                 Printf "%s\r\n" [ArgS "/a/"]])).
Proof.
  intros opendir sh parameters Hne folder.
  pose proof (cd_command_eq opendir sh parameters Hne) as Heq.
  fold folder in Heq. cbv zeta in Heq.
  split; [|split; [|split]].
  - apply with_trailing_slash_ends. apply resolved_not_empty. exact Hne.
  - intros Hf. rewrite Heq, Hf. reflexivity.
  - intros Ht. rewrite Heq, Ht. reflexivity.
  - intros Ha Hn. cbn. rewrite Ha. cbn. rewrite Hn. reflexivity.
Qed.

Lemma cd_command_atomic_witness :
  let opendir := fun p => String.eqb p "/a/" in
  let sh := on_module_loaded in
  current_path sh <> EmptyString
  /\ run opendir sh
       [ConsoleCd "/a"; ConsoleCd "/nonexistent"; ConsolePwd EmptyString] =
     Some (set_current_path sh "/a/",
           [Closedir "/a/";
            Printf "Could not open directory %s \r\n" [ArgS "/nonexistent/"];
            Printf "%s\r\n" [ArgS "/a/"]]).
Proof.
  intros opendir sh.
  assert (Hne : current_path sh <> EmptyString) by (simpl; discriminate).
  split; [exact Hne|].
  apply (cd_command_atomic opendir sh "/a" Hne); reflexivity.
Defined.

(** ** Reset countdown *)

Lemma device_resets_app :
  forall a b, device_resets (a ++ b) = (device_resets a + device_resets b)%nat.
Proof.
  intros a b. unfold device_resets. rewrite filter_app, length_app. reflexivity.
Qed.

(** Case analysis on every integer comparison of the goal, then [lia]. *)
Ltac case_comparisons :=
  repeat match goal with
         | |- context [(?a <? ?b)%Z] => destruct (Z.ltb_spec a b)
         | |- context [(?a <=? ?b)%Z] => destruct (Z.leb_spec a b)
         | |- context [(?a =? ?b)%Z] => destruct (Z.eqb_spec a b)
         | |- context [(?a <=? ?b)%nat] => destruct (Nat.leb_spec a b)
         end;
  cbn [andb orb negb]; try reflexivity; try lia.

(** What one input other than [reset] does to the countdown. *)
Lemma step_countdown :
  forall opendir sh i,
    current_path sh <> EmptyString ->
    is_reset_command i = false ->
    exists sh1 out,
      step opendir sh i = Some (sh1, out)
      /\ current_path sh1 <> EmptyString
      /\ reset_delay_secs sh1 =
           (if is_tick i && (0 <? reset_delay_secs sh)
            then reset_delay_secs sh - 1 else reset_delay_secs sh)
      /\ device_resets out =
           (if is_tick i && (reset_delay_secs sh =? 1) then 1%nat else 0%nat).
Proof.
  intros opendir sh i Hne Hi. destruct i as [|p|p|p]; simpl in *.
  - unfold on_second_tick.
    destruct (0 <? reset_delay_secs sh) eqn:E.
    + eexists _, _. split; [reflexivity|]. simpl. split; [exact Hne|].
      split; [reflexivity|].
      destruct (reset_delay_secs sh - 1 =? 0) eqn:E1;
        destruct (reset_delay_secs sh =? 1) eqn:E2; try reflexivity; lia.
    + eexists _, _. split; [reflexivity|]. split; [exact Hne|].
      split; [reflexivity|].
      destruct (reset_delay_secs sh =? 1) eqn:E2; [lia | reflexivity].
  - rewrite (cd_command_eq opendir sh p Hne). cbv zeta.
    destruct (opendir _); eexists _, _; (split; [reflexivity|]); simpl.
    + split; [|split; reflexivity].
      intros H.
      pose proof (with_trailing_slash_ends _ (resolved_not_empty sh p Hne)) as He.
      unfold ends_with_slash in He. rewrite H in He. discriminate.
    + split; [exact Hne | split; reflexivity].
  - eexists _, _. split; [reflexivity|]. simpl.
    split; [exact Hne | split; reflexivity].
  - discriminate.
Qed.

(** A run without [reset] commands from a countdown value [d]: the device
    reset fires once when the run holds at least [d] ticks, [d] positive. *)
Lemma run_countdown :
  forall opendir ins sh,
    current_path sh <> EmptyString ->
    existsb is_reset_command ins = false ->
    exists sh1 out,
      run opendir sh ins = Some (sh1, out)
      /\ device_resets out =
           (if (0 <? reset_delay_secs sh)
               && (reset_delay_secs sh <=? Z.of_nat (ticks ins))
            then 1%nat else 0%nat).
Proof.
  intros opendir ins. induction ins as [|i rest IH]; intros sh Hne Hno.
  - eexists _, _. split; [reflexivity|].
    change (Z.of_nat (ticks [])) with 0.
    destruct (Z.ltb_spec 0 (reset_delay_secs sh));
      destruct (Z.leb_spec (reset_delay_secs sh) 0);
      try reflexivity; lia.
  - simpl in Hno. apply orb_false_iff in Hno. destruct Hno as [Hi Hrest].
    destruct (step_countdown opendir sh i Hne Hi)
      as (sh1 & out1 & Hstep & Hne1 & Hd & Hr).
    destruct (IH sh1 Hne1 Hrest) as (sh2 & out2 & Hrun & Hr2).
    exists sh2, (out1 ++ out2). split.
    + simpl. rewrite Hstep, Hrun. reflexivity.
    + rewrite device_resets_app, Hr, Hr2, Hd.
      assert (Ht : Z.of_nat (ticks (i :: rest)) =
                   (if is_tick i then 1 else 0) + Z.of_nat (ticks rest)).
      { unfold ticks. simpl. destruct (is_tick i); simpl List.length; lia. }
      rewrite Ht. clear Ht Hr Hr2 Hd Hstep Hrun.
      pose proof (Nat2Z.is_nonneg (ticks rest)) as Hpos.
      generalize dependent (Z.of_nat (ticks rest)). intros t Hpos.
      generalize (reset_delay_secs sh). intros d.
      destruct (is_tick i); cbn [andb]; case_comparisons.
Qed.

(** A run from a countdown that stands where [since] ticks after a [reset]
    command leave it: the device reset fires on the ticks that are the
    fifth since the most recent [reset] command, and on no other. *)
Lemma run_fifth_ticks :
  forall opendir ins sh since,
    current_path sh <> EmptyString ->
    reset_delay_secs sh = Z.max 0 (5 - Z.of_nat since) ->
    exists sh1 out,
      run opendir sh ins = Some (sh1, out)
      /\ device_resets out = fifth_ticks since ins.
Proof.
  intros opendir ins. induction ins as [|i rest IH]; intros sh since Hne Hd.
  - exists sh, []. split; reflexivity.
  - destruct (is_reset_command i) eqn:Hi.
    + destruct i as [|p|p|p]; try discriminate.
      destruct (IH (set_reset_delay_secs sh 5) 0%nat Hne eq_refl)
        as (sh2 & out2 & Hrun & Hr).
      exists sh2, (reset_reply :: out2). split.
      * cbn [run step reset_command]. rewrite Hrun. reflexivity.
      * change (device_resets (reset_reply :: out2)) with (device_resets out2).
        rewrite Hr. reflexivity.
    + destruct (step_countdown opendir sh i Hne Hi)
        as (sh1 & out1 & Hstep & Hne1 & Hd1 & Hr1).
      assert (Hnext : exists since1,
                 reset_delay_secs sh1 = Z.max 0 (5 - Z.of_nat since1)
                 /\ (device_resets out1 + fifth_ticks since1 rest)%nat
                    = fifth_ticks since (i :: rest)).
      { destruct i as [|p|p|p]; try discriminate.
        - exists (S since). rewrite Hd1, Hr1, Hd. cbn [is_tick andb fifth_ticks].
          rewrite Nat2Z.inj_succ. split.
          + destruct (Z.ltb_spec 0 (Z.max 0 (5 - Z.of_nat since))); lia.
          + destruct (Z.eqb_spec (Z.max 0 (5 - Z.of_nat since)) 1);
              destruct (Nat.eqb_spec (S since) 5); try reflexivity; lia.
        - exists since. rewrite Hd1, Hr1. split; [exact Hd | reflexivity].
        - exists since. rewrite Hd1, Hr1. split; [exact Hd | reflexivity]. }
      destruct Hnext as (since1 & Hd' & Hcount).
      destruct (IH sh1 since1 Hne1 Hd') as (sh2 & out2 & Hrun & Hr2).
      exists sh2, (out1 ++ out2). split.
      * cbn [run]. rewrite Hstep, Hrun. reflexivity.
      * rewrite device_resets_app, Hr2. exact Hcount.
Qed.

Lemma ticks_cons :
  forall i rest,
    ticks (i :: rest) = ((if is_tick i then 1 else 0) + ticks rest)%nat.
Proof. intros i rest. unfold ticks. simpl. destruct (is_tick i); reflexivity. Qed.

(** Without a [reset] command, the fifth tick since the last one comes once,
    if it was not already past and enough ticks follow. *)
Lemma fifth_ticks_no_reset :
  forall ins since,
    existsb is_reset_command ins = false ->
    fifth_ticks since ins =
    (if (since <? 5)%nat && (5 <=? since + ticks ins)%nat then 1%nat else 0%nat).
Proof.
  induction ins as [|i rest IH]; intros since Hno.
  - change (ticks []) with 0%nat. cbn [fifth_ticks].
    destruct (Nat.ltb_spec since 5); destruct (Nat.leb_spec 5 (since + 0));
      try reflexivity; lia.
  - simpl in Hno. apply orb_false_iff in Hno. destruct Hno as [Hi Hrest].
    rewrite ticks_cons.
    destruct i as [|p|p|p]; try discriminate; cbn [fifth_ticks is_tick];
      rewrite (IH _ Hrest).
    + destruct (Nat.eqb_spec (S since) 5);
        destruct (Nat.ltb_spec (S since) 5);
        destruct (Nat.ltb_spec since 5);
        destruct (Nat.leb_spec 5 (S since + ticks rest));
        destruct (Nat.leb_spec 5 (since + (1 + ticks rest)));
        cbn [andb]; try reflexivity; lia.
    + reflexivity.
    + reflexivity.
Qed.

(** A [reset] command starts the count of ticks afresh. *)
Lemma fifth_ticks_app_reset :
  forall pre q post since,
    fifth_ticks since (pre ++ ConsoleReset q :: post) =
    (fifth_ticks since pre + fifth_ticks 0 post)%nat.
Proof.
  induction pre as [|i pre IH]; intros q post since; [reflexivity|].
  destruct i as [|p|p|p]; cbn [List.app fifth_ticks]; rewrite IH;
    try reflexivity.
  apply Nat.add_assoc.
Qed.

(** C4, as the code has it.  The [reset] command prints its reply at once
    and sets the countdown to 5.  In the run that follows, the device reset
    fires on a tick exactly when that tick is the fifth since the most
    recent [reset] command.  So, as long as no further [reset] command is
    processed, at every point of the run the device reset has fired exactly
    once if five ticks or more have followed the command and not at all
    otherwise: it fires on the fifth tick, on no earlier and on no later
    one, whatever [cd] and [pwd] commands come in between; and a [reset]
    command that comes while the countdown is running restarts it, the
    device reset then firing on the fifth tick after that later command.
    A tick with the countdown at 0 does nothing. *)
Theorem reset_countdown_fires_on_fifth_tick :
  forall (opendir : string -> bool) (sh : SimpleShell) (parameters : string)
         (ins : list input),
    current_path sh <> EmptyString ->
    (* the reply at once, the countdown at 5 *)
    run opendir sh [ConsoleReset parameters] =
      Some (set_reset_delay_secs sh 5,
            [Printf "Smoothie out. Peace. Rebooting in 5 seconds...\r\n" []])
    (* the run that follows *)
    /\ (exists sh1 out,
          run opendir sh (ConsoleReset parameters :: ins) =
            Some (sh1,
                  Printf "Smoothie out. Peace. Rebooting in 5 seconds...\r\n" []
                  :: out)
          /\ device_resets out = fifth_ticks 0 ins
          /\ (forall pre q post,
                ins = pre ++ ConsoleReset q :: post ->
                (ticks pre < 5)%nat ->
                existsb is_reset_command pre = false ->
                existsb is_reset_command post = false ->
                device_resets out =
                  (if (5 <=? ticks post)%nat then 1%nat else 0%nat)))
    (* no further reset command *)
    /\ (existsb is_reset_command ins = false ->
        fires_on_fifth_tick opendir sh parameters ins)
    (* idle *)
    /\ on_second_tick (set_reset_delay_secs sh 0) = (set_reset_delay_secs sh 0, []).
Proof.
  intros opendir sh parameters ins Hne.
  split; [reflexivity|]. split; [|split; [|reflexivity]].
  - destruct (run_fifth_ticks opendir ins (set_reset_delay_secs sh 5) 0%nat
                Hne eq_refl) as (sh1 & out & Hrun & Hr).
    exists sh1, out. split; [|split; [exact Hr|]].
    + cbn [run step reset_command]. rewrite Hrun. reflexivity.
    + intros pre q post Hins Hpre Hnopre Hnopost.
      rewrite Hr, Hins, fifth_ticks_app_reset.
      rewrite (fifth_ticks_no_reset pre 0 Hnopre).
      rewrite (fifth_ticks_no_reset post 0 Hnopost).
      change (0 <? 5)%nat with true. cbn [andb]. rewrite !Nat.add_0_l.
      destruct (Nat.leb_spec 5 (ticks pre)); [lia|]. reflexivity.
  - intros Hno n so_far.
    assert (Hno' : existsb is_reset_command so_far = false).
    { subst so_far. revert n. induction ins as [|i rest IH]; intros [|n];
        try reflexivity.
      simpl in Hno. apply orb_false_iff in Hno. destruct Hno as [Hi Hrest].
      simpl. rewrite Hi. apply IH. exact Hrest. }
    destruct (run_countdown opendir so_far (set_reset_delay_secs sh 5) Hne Hno')
      as (sh1 & out & Hrun & Hr).
    exists sh1, (Printf "Smoothie out. Peace. Rebooting in 5 seconds...\r\n" [] :: out).
    split.
    + simpl. simpl in Hrun. rewrite Hrun. reflexivity.
    + change (device_resets (?e :: out)) with (device_resets out).
      rewrite Hr. cbn [reset_delay_secs set_reset_delay_secs]. case_comparisons.
Qed.

Lemma reset_countdown_fires_on_fifth_tick_witness :
  fires_on_fifth_tick (fun _ => false) on_module_loaded EmptyString
    [SecondTick; SecondTick; ConsolePwd EmptyString; SecondTick;
     SecondTick; SecondTick; SecondTick].
Proof.
  assert (Hne : current_path on_module_loaded <> EmptyString)
    by (simpl; discriminate).
  apply (proj1 (proj2 (proj2
           (reset_countdown_fires_on_fifth_tick (fun _ => false)
              on_module_loaded EmptyString
              [SecondTick; SecondTick; ConsolePwd EmptyString; SecondTick;
               SecondTick; SecondTick; SecondTick] Hne)))).
  reflexivity.
Defined.

(** C4, as stated, fails on a run that issues [reset] again while the
    countdown is armed: five ticks after the first [reset] no device reset
    has fired. *)
Lemma reset_countdown_rearmed :
  ~ fires_on_fifth_tick (fun _ => false) on_module_loaded EmptyString
      [SecondTick; SecondTick; ConsoleReset EmptyString;
       SecondTick; SecondTick; SecondTick].
Proof.
  intros H. destruct (H 6%nat) as (sh1 & out & Hrun & Hr).
  cbv in Hrun. inversion Hrun; subst. cbv in Hr. discriminate.
Qed.

(** C10: whatever the countdown was, [reset] sets it to 5 and a second
    [reset] changes nothing more; the four ticks that follow fire nothing
    and the fifth fires the device reset, so a countdown that was already
    running does not complete on its earlier schedule. *)
Theorem reset_command_restarts_countdown :
  forall (opendir : string -> bool) (sh : SimpleShell) (p q : string),
    let armed := fst (reset_command sh p) in
    reset_delay_secs armed = 5
    /\ current_path armed = current_path sh
    /\ fst (reset_command armed q) = armed
    /\ run opendir armed (repeat SecondTick 4) =
         Some (set_reset_delay_secs sh 1, [])
    /\ run opendir armed (repeat SecondTick 5) =
         Some (set_reset_delay_secs sh 0, [SystemReset false]).
Proof.
  intros opendir sh p q armed. repeat split.
Qed.

(** ** Dispatch *)

Section DispatchFacts.

Variable get_checksum : string -> Z.
Variable get_arguments : string -> string.
Variable world : Type.
Variable call : PFUNC -> string -> world -> world.

(** The scan of [parse_command] computes the specification's lookup. *)
Lemma parse_command_lookup :
  forall table cs args w,
    has_sentinel table ->
    parse_command world call table cs args w =
      Some (match lookup table cs with
            | Some (_, fnc) => (call fnc args w, true)
            | None => (w, false)
            end).
Proof.
  induction table as [|p rest IH]; intros cs args w (q & Hin & Hq).
  - destruct Hin.
  - unfold lookup. simpl. destruct (pfunc p) as [fnc|] eqn:Ep.
    + simpl. destruct (cs =? command_cs p); [reflexivity|].
      apply IH. destruct Hin as [->|Hin]; [congruence|].
      exists q. split; assumption.
    + reflexivity.
Qed.


(** With unique fingerprints the first match is the only match. *)
Lemma lookup_unique :
  forall table cs e,
    NoDup (map fst (live_entries table)) ->
    In e (live_entries table) -> fst e = cs ->
    lookup table cs = Some e.
Proof.
  intros table cs e. unfold lookup.
  induction (live_entries table) as [|x l IH]; intros Hnd Hin He.
  - destruct Hin.
  - simpl in *. inversion Hnd as [|? ? Hnotin Hnd']; subst.
    destruct Hin as [->|Hin].
    + rewrite Z.eqb_refl. reflexivity.
    + destruct (Z.eqb_spec (fst e) (fst x)) as [Heq|Hneq].
      * exfalso. apply Hnotin. rewrite <- Heq. apply in_map. exact Hin.
      * apply IH; auto.
Qed.

End DispatchFacts.


Lemma commands_table_has_sentinel :
  forall CHECKSUM, has_sentinel (commands_table CHECKSUM).
Proof.
  intros CHECKSUM. exists (mkEntry 0 None). split; [|reflexivity].
  unfold commands_table. repeat (try (left; reflexivity); right).
Qed.


(** ** Heap walk *)

Lemma wrap32_small : forall z, 0 <= z < 2 ^ 32 -> wrap32 z = z.
Proof. intros z H. unfold wrap32. apply Z.mod_small. exact H. Qed.

Lemma wrap32_range : forall z, 0 <= wrap32 z < 2 ^ 32.
Proof. intros z. unfold wrap32. apply Z.mod_pos_bound. lia. Qed.

Lemma wrap32_add_l : forall a b, wrap32 (wrap32 a + b) = wrap32 (a + b).
Proof. intros a b. unfold wrap32. apply Zplus_mod_idemp_l. Qed.

Lemma load32_range : forall mem a, 0 <= load32 mem a < 2 ^ 32.
Proof. intros mem a. apply wrap32_range. Qed.

Lemma is_free_In : forall fl c, is_free fl c = true <-> In (fst c) fl.
Proof.
  intros fl c. unfold is_free. rewrite existsb_exists. split.
  - intros (x & Hin & Heq). apply Z.eqb_eq in Heq. subst. exact Hin.
  - intros Hin. exists (fst c). split; [exact Hin | apply Z.eqb_refl].
Qed.

Lemma totals_split :
  forall report, used_total report + free_total report = sum_adjusted report.
Proof.
  intros report. unfold used_total, free_total.
  induction report as [|[c free] l IH]; simpl; [reflexivity|].
  destruct free; simpl; lia.
Qed.

Lemma sum_printed_lines :
  forall report n, sum_printed (chunk_lines n report) = sum_adjusted report.
Proof.
  intros report. induction report as [|[c free] l IH]; intros n; simpl;
    [reflexivity|].
  rewrite IH. reflexivity.
Qed.

Lemma used_total_cons :
  forall c free l,
    used_total ((c, free) :: l) =
    (if free then 0 else adjusted c) + used_total l.
Proof. intros c [] l; reflexivity. Qed.

Lemma free_total_cons :
  forall c free l,
    free_total ((c, free) :: l) =
    (if free then adjusted c else 0) + free_total l.
Proof. intros c [] l; reflexivity. Qed.

(** Neither total exceeds the sum of the raw sizes. *)
Lemma totals_le_raw :
  forall mem f l,
    Forall (fun c => 8 <= snd c) l ->
    0 <= used_total (classify mem f l)
      <= fold_right (fun c acc => snd c + acc) 0 l
    /\ 0 <= free_total (classify mem f l)
         <= fold_right (fun c acc => snd c + acc) 0 l.
Proof.
  intros mem f l H. revert f. induction H as [|c l Hc Hl IH]; intros f.
  - cbn. lia.
  - cbn [classify]. rewrite used_total_cons, free_total_cons.
    specialize (IH (if fst c =? f then load32 mem (wrap32 (f + 4)) else f)).
    cbn [fold_right]. destruct (fst c =? f); unfold adjusted; lia.
Qed.

Section HeapFacts.

Variable mem : Z -> Z.
Variable heapEnd : Z.

Lemma laid_out_le : forall a l, laid_out mem heapEnd a l -> a <= heapEnd.
Proof. intros a l H. destruct H; lia. Qed.

(** Later chunks lie at higher addresses. *)
Lemma laid_out_addresses :
  forall a l, laid_out mem heapEnd a l ->
    forall c, In c l -> a <= fst c.
Proof.
  intros a l H. induction H as [|a l Hlt Hl IH]; intros c Hin.
  - destruct Hin.
  - destruct Hin as [<-|Hin]; [simpl; lia|].
    specialize (IH c Hin). pose proof (load32_range mem a). lia.
Qed.

(** The raw sizes add up to the extent of the heap. *)
Lemma laid_out_extent :
  forall a l, laid_out mem heapEnd a l ->
    fold_right (fun c acc => snd c + acc) 0 l = heapEnd - a.
Proof.
  intros a l H. induction H as [|a l Hlt Hl IH]; simpl; lia.
Qed.

(** On a sorted free list of heap chunks the cursor finds exactly the
    chunks of the list. *)
Lemma classify_free_list :
  forall l a f fl,
    0 < a ->
    laid_out mem heapEnd a l ->
    Forall (fun c => 8 <= snd c) l ->
    free_list mem f fl ->
    StronglySorted Z.lt fl ->
    incl fl (map fst l) ->
    classify mem f l = by_free_list fl l.
Proof.
  induction l as [|c l IH]; intros a f fl Ha Hlay Hsz Hfl Hsort Hincl;
    [reflexivity|].
  inversion Hlay as [|a0 l0 Hlt Hrest Ha0]; subst a0 l0 c.
  inversion Hsz as [|c0 l0 Hc Hsz']; subst c0 l0. simpl in Hc.
  pose proof (laid_out_addresses _ _ Hrest) as Haddr.
  assert (Hlater : forall x, In x (map fst l) -> a < x).
  { intros x Hx. apply in_map_iff in Hx. destruct Hx as (c & <- & Hc').
    specialize (Haddr c Hc'). lia. }
  cbn [classify by_free_list map fst].
  destruct (Z.eqb_spec a f) as [Heq|Hneq].
  - (* the chunk is the head of the free list *)
    inversion Hfl as [Hnull|a0 fl1 Hnz Hfl1 Ha0 Hfl0]; [lia|].
    subst a0. rewrite <- Heq in *. clear Heq.
    rewrite <- Hfl0 in Hsort, Hincl.
    inversion Hsort as [|x fl0 Hsort1 Hall]; subst x fl0.
    assert (Hincl1 : incl fl1 (map fst l)).
    { intros x Hx. destruct (Hincl x (or_intror Hx)) as [Hxa|Hxl].
      - simpl in Hxa. rewrite Forall_forall in Hall.
        specialize (Hall x Hx). lia.
      - exact Hxl. }
    rewrite (IH (a + load32 mem a) _ fl1) by (assumption || lia).
    f_equal.
    + f_equal. symmetry. apply is_free_In. left. reflexivity.
    + unfold by_free_list. apply map_ext_in. intros c Hc'.
      f_equal. unfold is_free. simpl.
      destruct (Z.eqb_spec (fst c) a) as [Hca|_]; [|reflexivity].
      specialize (Hlater (fst c) (in_map fst l c Hc')). lia.
  - (* the chunk is in use *)
    assert (Hnotin : ~ In a fl).
    { intros Hin.
      inversion Hfl as [Hnull Hfl0|a0 fl1 Hnz Hfl1 Ha0 Hfl0].
      - rewrite <- Hfl0 in Hin. destruct Hin.
      - rewrite <- Hfl0 in Hin, Hsort, Hincl.
        destruct Hin as [Hin|Hin]; [congruence|].
        inversion Hsort as [|x fl0 Hsort1 Hall]; subst x fl0.
        rewrite Forall_forall in Hall. specialize (Hall a Hin).
        destruct (Hincl f (or_introl eq_refl)) as [Hxa|Hxl].
        + simpl in Hxa. congruence.
        + specialize (Hlater _ Hxl). lia. }
    assert (Hincl1 : incl fl (map fst l)).
    { intros x Hx. destruct (Hincl x Hx) as [Hxa|Hxl]; [|exact Hxl].
      simpl in Hxa. subst x. contradiction. }
    rewrite (IH (a + load32 mem a) f fl) by (assumption || lia).
    f_equal. f_equal.
    destruct (is_free fl (a, load32 mem a)) eqn:E; [|reflexivity].
    apply is_free_In in E. contradiction.
Qed.

Variable verbose : bool.

(** One iteration on a chunk of raw size at least 8 that ends inside the
    32-bit address space. *)
Lemma heapWalk_body_chunk :
  forall st,
    let a := chunkCurr st in
    let sz := load32 mem a in
    let free := a =? freeCurr st in
    0 <= a -> 8 <= sz -> a + sz < 2 ^ 32 ->
    heapWalk_body mem verbose st =
      ({| chunkNumber := wrap32 (chunkNumber st + 1);
          chunkCurr := a + sz;
          freeCurr := if free then load32 mem (wrap32 (freeCurr st + 4))
                      else freeCurr st;
          freeSize := if free then wrap32 (freeSize st + (sz - 8))
                      else freeSize st;
          usedSize := if free then usedSize st
                      else wrap32 (usedSize st + (sz - 8)) |},
       if verbose then
         [Printf chunk_fmt
            [ArgU (chunkNumber st); ArgU (align8 (a + 4)); ArgU (sz - 8);
             ArgS (free_marker free)]]
       else []).
Proof.
  intros st a sz free Ha Hsz Hend.
  pose proof (load32_range mem a) as Hr. fold sz in Hr.
  unfold heapWalk_body. fold a. fold sz. fold free.
  rewrite (wrap32_small (a + sz)) by lia.
  rewrite (wrap32_small (sz - 8)) by lia.
  rewrite (wrap32_small (a + 4)) by lia.
  reflexivity.
Qed.

(** The loop, started at the address of the first chunk of [l], reports
    the chunks of [l] as the two cursors classify them. *)
Lemma heapWalk_loop_report :
  forall l a st fuel,
    heapEnd < 2 ^ 32 -> 0 <= a ->
    laid_out mem heapEnd a l ->
    Forall (fun c => 8 <= snd c) l ->
    chunkCurr st = a ->
    0 <= usedSize st < 2 ^ 32 ->
    0 <= freeSize st < 2 ^ 32 ->
    (List.length l <= fuel)%nat ->
    let report := classify mem (freeCurr st) l in
    exists st1,
      heapWalk_loop fuel mem heapEnd verbose st =
        Some (st1, lines_if_verbose verbose (chunkNumber st) report)
      /\ usedSize st1 = wrap32 (usedSize st + used_total report)
      /\ freeSize st1 = wrap32 (freeSize st + free_total report).
Proof.
  induction l as [|c l IH];
    intros a st fuel Hend Ha Hlay Hsz Hcur Hu Hf Hfuel report; subst report.
  - assert (Hcur' : chunkCurr st = heapEnd)
      by (inversion Hlay; congruence).
    exists st. split.
    + destruct fuel; simpl; rewrite Hcur', Z.ltb_irrefl;
        unfold lines_if_verbose; destruct verbose; reflexivity.
    + unfold used_total, free_total. simpl. rewrite !Z.add_0_r.
      rewrite !wrap32_small by assumption. split; reflexivity.
  - inversion Hlay as [|a0 l0 Hlt Hrest Ha0]; subst a0 l0 c.
    inversion Hsz as [|c0 l0 Hc Hsz']; subst c0 l0. simpl in Hc.
    pose proof (laid_out_le _ _ Hrest) as Hle.
    pose proof (load32_range mem a) as Hrange.
    destruct fuel as [|fuel]; [simpl in Hfuel; lia|].
    simpl in Hfuel.
    pose proof (heapWalk_body_chunk st) as Hbody. cbv zeta in Hbody.
    rewrite Hcur in Hbody.
    specialize (Hbody ltac:(lia) Hc ltac:(lia)).
    cbn [heapWalk_loop]. rewrite Hcur.
    destruct (Z.ltb_spec a heapEnd) as [_|Hge]; [|lia].
    rewrite Hbody. clear Hbody.
    cbn [classify fst]. rewrite used_total_cons, free_total_cons.
    match goal with
    | |- context [heapWalk_loop fuel mem heapEnd verbose ?s] =>
        destruct (IH (a + load32 mem a) s fuel)
          as (st2 & Hloop & Hu2 & Hf2);
          cbn [chunkCurr freeCurr usedSize freeSize chunkNumber];
          try assumption; try lia;
          try (destruct (a =? freeCurr st);
               first [assumption | apply wrap32_range])
    end.
    cbn [chunkCurr freeCurr usedSize freeSize chunkNumber] in *.
    rewrite Hloop. exists st2. split; [|split].
    + unfold lines_if_verbose. destruct verbose; reflexivity.
    + rewrite Hu2. destruct (a =? freeCurr st).
      * f_equal.
      * rewrite wrap32_add_l. f_equal. unfold adjusted. simpl. lia.
    + rewrite Hf2. destruct (a =? freeCurr st).
      * rewrite wrap32_add_l. f_equal. unfold adjusted. simpl. lia.
      * f_equal.
Qed.

End HeapFacts.

(** C1: on a heap that satisfies the allocator's invariants the walk ends;
    it prints [heapEnd - heapStart] first, lists (when verbose) every chunk
    with its adjusted size, and ends with the totals of the adjusted sizes
    of the chunks found used and found free.  The two totals add up to the
    sum of the adjusted sizes listed, and the value of the first line is at
    least the used total.  A chunk counts as free exactly when its address
    is the free-list cursor, in which case its adjusted size goes to the
    free total, to the used total otherwise; on a sorted free list of heap
    chunks these are exactly the chunks of the free list. *)
Theorem heapWalk_totals :
  forall (mem : Z -> Z) (heapStart freeHead heapEnd : Z)
         (chunks : list (Z * Z)) (verbose : bool) (fuel : nat),
    heap_layout mem heapStart heapEnd chunks ->
    (List.length chunks <= fuel)%nat ->
    let report := classify mem freeHead chunks in
    let used := used_total report in
    let free := free_total report in
    heapWalk fuel mem heapStart freeHead heapEnd verbose =
      Some (Printf "Used Heap Size: %lu\n" [ArgU (heapEnd - heapStart)]
            :: lines_if_verbose verbose 1 report
            ++ [Printf "Allocated: %lu, Free: %lu\r\n" [ArgU used; ArgU free]])
    /\ used + free = sum_adjusted report
    /\ sum_printed (chunk_lines 1 report) = used + free
    /\ used <= heapEnd - heapStart
    /\ (forall st : walk,
          let st1 := fst (heapWalk_body mem verbose st) in
          let size := wrap32 (load32 mem (chunkCurr st) - 8) in
          (chunkCurr st = freeCurr st ->
             freeSize st1 = wrap32 (freeSize st + size)
             /\ usedSize st1 = usedSize st)
          /\ (chunkCurr st <> freeCurr st ->
                usedSize st1 = wrap32 (usedSize st + size)
                /\ freeSize st1 = freeSize st))
    /\ (forall fl : list Z,
          free_list_inv mem heapStart freeHead chunks fl ->
          report = by_free_list fl chunks).
Proof.
  intros mem heapStart freeHead heapEnd chunks verbose fuel Hlayout Hfuel
         report used free.
  destruct Hlayout as [Hstart Hend Hlay Hsz].
  pose proof (laid_out_le _ _ _ _ Hlay) as Hle.
  pose proof (laid_out_extent _ _ _ _ Hlay) as Hext.
  destruct (totals_le_raw mem freeHead chunks Hsz) as [Hub Hfb].
  fold report in Hub, Hfb. fold used in Hub. fold free in Hfb.
  split; [|split; [|split; [|split; [|split]]]].
  - unfold heapWalk.
    destruct (heapWalk_loop_report mem heapEnd verbose chunks heapStart
                {| chunkNumber := 1; chunkCurr := heapStart;
                   freeCurr := freeHead; freeSize := 0; usedSize := 0 |} fuel)
      as (st1 & Hloop & Hu & Hf); simpl; try assumption; try lia; try reflexivity.
    rewrite Hloop. simpl in Hu, Hf. rewrite Hu, Hf.
    fold report. fold used. fold free.
    rewrite !wrap32_small by lia.
    reflexivity.
  - apply totals_split.
  - rewrite sum_printed_lines. symmetry. apply totals_split.
  - lia.
  - intros st st1 size. subst st1 size. unfold heapWalk_body. simpl. split.
    + intros Heq. rewrite (proj2 (Z.eqb_eq _ _) Heq). split; reflexivity.
    + intros Hneq. rewrite (proj2 (Z.eqb_neq _ _) Hneq). split; reflexivity.
  - intros fl [Hnn Hfl Hsort Hincl]. subst report.
    apply (classify_free_list mem heapEnd chunks heapStart freeHead fl);
      assumption.
Qed.

Lemma example_heap_layout :
  heap_layout example_mem 4096 4184 example_chunks.
Proof.
  constructor.
  - lia.
  - lia.
  - unfold example_chunks.
    apply (laid_out_chunk example_mem 4184 4096); [lia|].
    apply (laid_out_chunk example_mem 4184 4112); [lia|].
    apply (laid_out_chunk example_mem 4184 4136); [lia|].
    apply (laid_out_chunk example_mem 4184 4152); [lia|].
    apply laid_out_end.
  - unfold example_chunks. repeat constructor; simpl; lia.
Defined.

Lemma example_free_list_inv :
  free_list_inv example_mem 4096 4112 example_chunks example_free_list.
Proof.
  constructor.
  - lia.
  - unfold example_free_list.
    apply (free_list_chunk example_mem 4112); [lia|].
    apply (free_list_chunk example_mem 4152); [lia|].
    apply free_list_null.
  - unfold example_free_list. repeat constructor; lia.
  - intros x Hx. simpl in *. intuition.
Defined.

Lemma heapWalk_totals_witness :
  heapWalk 4 example_mem 4096 4112 4184 true =
    Some [Printf "Used Heap Size: %lu\n" [ArgU 88];
          Printf chunk_fmt [ArgU 1; ArgU 4104; ArgU 8; ArgS ""];
          Printf chunk_fmt [ArgU 2; ArgU 4120; ArgU 16; ArgS "CHUNK FREE"];
          Printf chunk_fmt [ArgU 3; ArgU 4144; ArgU 8; ArgS ""];
          Printf chunk_fmt [ArgU 4; ArgU 4160; ArgU 24; ArgS "CHUNK FREE"];
          Printf "Allocated: %lu, Free: %lu\r\n" [ArgU 16; ArgU 40]]
  /\ classify example_mem 4112 example_chunks =
     by_free_list example_free_list example_chunks.
Proof.
  pose proof (heapWalk_totals example_mem 4096 4112 4184 example_chunks true 4
                example_heap_layout (le_n 4)) as H.
  cbv zeta in H. split.
  - exact (proj1 H).
  - exact (proj2 (proj2 (proj2 (proj2 (proj2 H)))) example_free_list
             example_free_list_inv).
Defined.

(** ** cat *)

Lemma append_assoc :
  forall a b c : string, ((a ++ b) ++ c)%string = (a ++ (b ++ c))%string.
Proof.
  induction a as [|x a IH]; intros b c; simpl; [reflexivity|].
  rewrite IH. reflexivity.
Qed.

Lemma append_nil_r : forall a : string, (a ++ EmptyString)%string = a.
Proof.
  induction a as [|x a IH]; simpl; [reflexivity|]. rewrite IH. reflexivity.
Qed.

(** Bytes other than a newline are only appended to the buffer while the
    count stays at 80 or below. *)
Lemma cat_loop_fill :
  forall limit pre rest buffer newlines linecnt,
    no_newline pre = true ->
    linecnt + Z.of_nat (String.length pre) <= 80 ->
    newlines <> limit ->
    cat_loop limit (pre ++ rest)%string buffer newlines linecnt =
    cat_loop limit rest (buffer ++ pre)%string newlines
      (linecnt + Z.of_nat (String.length pre)).
Proof.
  intros limit pre. induction pre as [|c pre IH];
    intros rest buffer newlines linecnt Hnl Hlen Hlim.
  - simpl. rewrite append_nil_r, Z.add_0_r. reflexivity.
  - cbn [no_newline] in Hnl. apply andb_true_iff in Hnl.
    destruct Hnl as [Hc Hpre]. apply negb_true_iff in Hc.
    cbn [String.length] in Hlen. rewrite Nat2Z.inj_succ in Hlen.
    cbn [String.append cat_loop]. rewrite Hc. cbn [orb andb].
    destruct (Z.ltb_spec 80 (linecnt + 1)) as [Hgt|_]; [lia|].
    destruct (Z.eqb_spec newlines limit) as [Heq|_]; [contradiction|].
    cbn [List.app andb]. rewrite IH by (assumption || lia).
    rewrite append_assoc. cbn [String.append String.length].
    rewrite Nat2Z.inj_succ. f_equal. lia.
Qed.

(** The byte that brings the count to 81 forces a flush of the buffer,
    that byte included, and the flush counts as a line. *)
Lemma cat_loop_forced_flush :
  forall limit c rest buffer newlines,
    Ascii.eqb c LF = false ->
    cat_loop limit (String c rest) buffer newlines 80 =
    Puts (c_str (buffer ++ String c EmptyString))
    :: (if newlines + 1 =? limit then []
        else cat_loop limit rest EmptyString (newlines + 1) 0).
Proof.
  intros limit c rest buffer newlines Hc.
  cbn [cat_loop]. rewrite Hc. cbn.
  destruct (newlines + 1 =? limit); reflexivity.
Qed.

(** A newline flushes the buffer and counts as a line; the count of bytes
    since the last forced flush goes on unchanged into the next line. *)
Lemma cat_loop_newline :
  forall limit rest buffer newlines linecnt,
    linecnt <= 80 ->
    cat_loop limit (String LF rest) buffer newlines linecnt =
    Puts (c_str (buffer ++ String LF EmptyString))
    :: (if newlines + 1 =? limit then []
        else cat_loop limit rest EmptyString (newlines + 1) linecnt).
Proof.
  intros limit rest buffer newlines linecnt Hle.
  cbn [cat_loop]. change (Ascii.eqb LF LF) with true. cbn [orb andb].
  destruct (Z.ltb_spec 80 linecnt) as [Hgt|_]; [lia|].
  destruct (newlines + 1 =? limit); reflexivity.
Qed.

(** Without a line limit, a file of 162 to 242 bytes that holds no newline
    is written as two texts of 81 bytes; the bytes after them are dropped
    at the end of the file. *)
Lemma cat_unterminated_line :
  forall limit p1 c1 p2 c2 p3,
    limit < 0 ->
    String.length p1 = 80%nat -> String.length p2 = 80%nat ->
    (String.length p3 <= 80)%nat ->
    no_newline (p1 ++ String c1 (p2 ++ String c2 p3))%string = true ->
    cat_loop limit (p1 ++ String c1 (p2 ++ String c2 p3))%string
      EmptyString 0 0 =
    [Puts (c_str (p1 ++ String c1 EmptyString));
     Puts (c_str (p2 ++ String c2 EmptyString))].
Proof.
  intros limit p1 c1 p2 c2 p3 Hlim H1 H2 H3 Hnl.
  assert (Happ : forall a b, no_newline (a ++ b)%string = true ->
                   no_newline a = true /\ no_newline b = true).
  { induction a as [|x a IH]; intros b H; simpl in *; [split; auto|].
    apply andb_true_iff in H. destruct H as [Hx Hab].
    destruct (IH b Hab) as [Ha Hb]. rewrite Hx, Ha. split; auto. }
  destruct (Happ _ _ Hnl) as [Hp1 Hr1]. cbn [no_newline] in Hr1.
  apply andb_true_iff in Hr1. destruct Hr1 as [Hc1 Hr1].
  apply negb_true_iff in Hc1.
  destruct (Happ _ _ Hr1) as [Hp2 Hr2]. cbn [no_newline] in Hr2.
  apply andb_true_iff in Hr2. destruct Hr2 as [Hc2 Hp3].
  apply negb_true_iff in Hc2.
  rewrite cat_loop_fill by (assumption || lia).
  rewrite H1. change (0 + Z.of_nat 80) with 80.
  rewrite cat_loop_forced_flush by assumption.
  destruct (Z.eqb_spec (0 + 1) limit) as [Heq|_]; [lia|].
  rewrite cat_loop_fill by (assumption || lia).
  rewrite H2. change (0 + Z.of_nat 80) with 80.
  rewrite cat_loop_forced_flush by assumption.
  destruct (Z.eqb_spec (0 + 1 + 1) limit) as [Heq|_]; [lia|].
  rewrite <- (append_nil_r p3).
  rewrite cat_loop_fill by (assumption || lia).
  reflexivity.
Qed.

(** C5: on a file of 200 bytes ['a'] without a newline, read without a line
    limit, [cat] writes two texts of 81 bytes and nothing else: a flush is
    longer than 80 bytes, and the last 38 bytes of the file are never
    written. *)
Theorem cat_long_line :
  let out := cat_loop (-1) (replicate 200 "a") EmptyString 0 0 in
  out = [Puts (replicate 81 "a"); Puts (replicate 81 "a")]
  /\ Exists (fun s => (80 < String.length s)%nat) (flushed out)
  /\ String.length (emitted out) = 162%nat
  /\ emitted out <> replicate 200 "a".
Proof.
  intros out.
  assert (Hout : out = [Puts (replicate 81 "a"); Puts (replicate 81 "a")])
    by (vm_compute; reflexivity).
  split; [exact Hout|]. rewrite Hout. split; [|split].
  - apply Exists_cons_hd. vm_compute. lia.
  - vm_compute. reflexivity.
  - intros H. apply (f_equal String.length) in H. vm_compute in H. discriminate.
Qed.

(** C6: on a file of ten lines of 30 bytes ['a'], each ended by a newline,
    [cat] with limit 3 writes the first two lines and the first 21 bytes of
    the third, and stops: the count of bytes since the last forced flush is
    not reset at a newline, and the forced flush counts as a line. *)
Theorem cat_limit_three :
  let out := cat_loop 3 (text_lines 10 30 "a") EmptyString 0 0 in
  out = [Puts (text_line 30 "a"); Puts (text_line 30 "a");
         Puts (replicate 21 "a")]
  /\ emitted out <> text_lines 3 30 "a".
Proof.
  intros out.
  assert (Hout : out = [Puts (text_line 30 "a"); Puts (text_line 30 "a");
                        Puts (replicate 21 "a")])
    by (vm_compute; reflexivity).
  split; [exact Hout|]. rewrite Hout.
  intros H. apply (f_equal String.length) in H. vm_compute in H. discriminate.
Qed.

(** [cat_command] runs the loop on the bytes of the file it opens, with the
    limit read from its second parameter. *)
Lemma cat_command_loop :
  forall shift_parameter strtol fopen sh parameters contents,
    let filename :=
      absolute_from_relative sh (fst (shift_parameter parameters)) in
    let limit_paramater :=
      fst (shift_parameter (snd (shift_parameter parameters))) in
    fopen (c_str filename) = Some contents ->
    cat_command shift_parameter strtol fopen sh parameters =
      cat_loop (cat_limit strtol limit_paramater) contents EmptyString 0 0
      ++ [Fclose (c_str filename)].
Proof.
  intros shift_parameter strtol fopen sh parameters contents filename lp Hopen.
  unfold cat_command. subst filename lp.
  destruct (shift_parameter parameters) as [tok rest]. simpl in *.
  destruct (shift_parameter rest) as [lim rest1]. simpl.
  rewrite Hopen. reflexivity.
Qed.

(** ** rm *)

(** C7: in every call of [rm_command] the pointer handed to [remove] points
    into the buffer of a string that has already been destroyed: the read
    of the path is a use after destruction, and it happens before anything
    is removed or printed. *)
Theorem rm_command_reads_destroyed_temporary :
  forall (shift_parameter : string -> string * string) (remove : string -> Z)
         (sh : SimpleShell) (parameters : string),
    rm_command shift_parameter remove sh parameters start =
      UseAfterDestroy 0
        {| objects :=
             [mkStr (absolute_from_relative sh (fst (shift_parameter parameters)))
                false];
           trace := [] |}.
Proof.
  intros shift_parameter remove sh parameters. reflexivity.
Qed.

Lemma bind_done :
  forall (A B : Type) (m : M A) (k : A -> M B) st a st1,
    m st = Done a st1 -> bind m k st = k a st1.
Proof. intros A B m k st a st1 H. unfold bind. rewrite H. reflexivity. Qed.

Lemma emit_names_done :
  forall (line : string -> effect) (last : effect) names st,
    exists st1,
      fold_right (fun name k => emit (line name) ;;; k) (emit last) names st
      = Done tt st1.
Proof.
  intros line last names. induction names as [|n names IH]; intros st; simpl.
  - eexists. reflexivity.
  - erewrite bind_done by reflexivity. apply IH.
Qed.

(** The sibling [ls_command] keeps the resolved path in a named local and
    never reads a destroyed buffer. *)
Lemma ls_command_safe :
  forall opendir_entries lc sh parameters,
    exists st, ls_command opendir_entries lc sh parameters start = Done tt st.
Proof.
  intros opendir_entries lc sh parameters. unfold ls_command.
  erewrite bind_done by reflexivity.
  erewrite bind_done by reflexivity.
  destruct (opendir_entries _) as [names|].
  - match goal with
    | |- context [fold_right ?f ?e names] =>
        destruct (emit_names_done
                    (fun name => Printf "%s\r\n" [ArgS (c_str (lc name))])
                    (Closedir (c_str (absolute_from_relative sh parameters)))
                    names
                    {| objects :=
                         [mkStr (absolute_from_relative sh parameters) true];
                       trace := [] |}) as (st1 & Hst1)
    end.
    erewrite bind_done by exact Hst1. eexists. reflexivity.
  - erewrite bind_done by reflexivity. eexists. reflexivity.
Qed.

(** ** set_temp *)

(** C8: when the numeric argument of [set_temp] is missing, or [strtod]
    can convert nothing of it, the value sent through the public-data
    interface is 0.0; the only output is the success line or the
    "not a known temperature device" line, chosen by the answer of the
    interface for that device name alone. *)
Theorem set_temp_command_bad_number :
  forall (shift_parameter : string -> string * string)
         (get_checksum : string -> Z) (temperature_control_checksum : Z)
         (strtod_conversion : string -> option double)
         (set_value : Z -> Z -> double -> bool) (parameters : string),
    let type := fst (shift_parameter parameters) in
    let temp := fst (shift_parameter (snd (shift_parameter parameters))) in
    let device := get_checksum type in
    temp = EmptyString \/ strtod_conversion (c_str temp) = None ->
    set_temp_command shift_parameter get_checksum temperature_control_checksum
      strtod_conversion set_value parameters =
      SetValue temperature_control_checksum device PrimFloat.zero
      :: (if set_value temperature_control_checksum device PrimFloat.zero
          then [Printf "%s temp set to: %3.1f\r\n"
                  [ArgS (c_str type); ArgF PrimFloat.zero]]
          else [Printf "%s is not a known temperature device\r\n"
                  [ArgS (c_str type)]]).
Proof.
  intros shift_parameter get_checksum tc conv set_value parameters
         type temp device Hbad.
  unfold set_temp_command. subst type temp device.
  destruct (shift_parameter parameters) as [type rest]. simpl in *.
  destruct (shift_parameter rest) as [temp rest1]. simpl in *.
  assert (Ht : match temp with
               | EmptyString => PrimFloat.zero
               | String _ _ => strtod conv (c_str temp)
               end = PrimFloat.zero).
  { destruct temp as [|c r]; [reflexivity|].
    destruct Hbad as [Hbad|Hbad]; [discriminate|].
    unfold strtod. rewrite Hbad. reflexivity. }
  rewrite Ht. reflexivity.
Qed.

Lemma set_temp_command_bad_number_witness :
  set_temp_command example_shift_parameter example_checksum
    (example_checksum "temperature_control") example_strtod_conversion
    example_set_value "bed abc" =
    [SetValue (example_checksum "temperature_control") (example_checksum "bed")
       PrimFloat.zero;
     Printf "%s temp set to: %3.1f\r\n" [ArgS "bed"; ArgF PrimFloat.zero]].
Proof.
  apply (set_temp_command_bad_number example_shift_parameter example_checksum
           (example_checksum "temperature_control") example_strtod_conversion
           example_set_value "bed abc").
  right. reflexivity.
Defined.

(** * Further properties *)

(** ** Path resolver and session *)

Lemma char0_slash_not_empty :
  forall s, char0 s = "/"%char -> s <> EmptyString.
Proof. intros [|c r] H; [discriminate | discriminate]. Qed.

Lemma char0_app :
  forall a b, a <> EmptyString -> char0 (a ++ b)%string = char0 a.
Proof. intros [|c a] b H; [contradiction | reflexivity]. Qed.

Lemma last_char_app :
  forall a b, b <> EmptyString -> last_char (a ++ b)%string = last_char b.
Proof.
  induction a as [|c a IH]; intros b Hb; [reflexivity|].
  assert (Hab : (a ++ b)%string <> EmptyString).
  { intros E. pose proof (append_empty _ _ E) as Ha. subst a.
    simpl in E. contradiction. }
  change (last_char (String c a ++ b)%string)
    with (last_char (String c (a ++ b)%string)).
  destruct (a ++ b)%string as [|x r] eqn:E; [contradiction|].
  change (last_char (String c (String x r))) with (last_char (String x r)).
  rewrite <- E. apply IH. exact Hb.
Qed.

Lemma with_trailing_slash_char0 :
  forall s, s <> EmptyString -> char0 (with_trailing_slash s) = char0 s.
Proof.
  intros s Hs. unfold with_trailing_slash.
  destruct (last_char s) as [c|]; [|apply char0_app; exact Hs].
  destruct c as [[] [] [] [] [] [] [] []];
    try (apply char0_app; exact Hs); reflexivity.
Qed.

Lemma with_trailing_slash_fixed :
  forall s, ends_with_slash s -> with_trailing_slash s = s.
Proof.
  intros s H. unfold with_trailing_slash. rewrite H. reflexivity.
Qed.

Lemma with_trailing_slash_app :
  forall a b, b <> EmptyString ->
    with_trailing_slash (a ++ b) = (a ++ with_trailing_slash b)%string.
Proof.
  intros a b Hb. unfold with_trailing_slash. rewrite (last_char_app a b Hb).
  destruct (last_char b) as [c|]; [|apply append_assoc].
  destruct c as [[] [] [] [] [] [] [] []];
    try apply append_assoc; reflexivity.
Qed.

Lemma resolved_absolute :
  forall sh path,
    char0 (current_path sh) = "/"%char ->
    char0 (absolute_from_relative sh path) = "/"%char.
Proof.
  intros sh path Habs. unfold absolute_from_relative.
  destruct (Ascii.eqb_spec (char0 path) "/") as [Hp|_]; [exact Hp|].
  destruct (Ascii.eqb (char0 path) "."); [exact Habs|].
  rewrite char0_app by (apply char0_slash_not_empty; exact Habs).
  exact Habs.
Qed.

(** X1: once the current path is absolute, every resolved path is absolute
    (it starts with ['/']) and resolving it again changes nothing. *)
Theorem absolute_from_relative_idempotent :
  forall (sh : SimpleShell) (path : string),
    char0 (current_path sh) = "/"%char ->
    char0 (absolute_from_relative sh path) = "/"%char
    /\ absolute_from_relative sh (absolute_from_relative sh path) =
       absolute_from_relative sh path.
Proof.
  intros sh path Habs.
  pose proof (resolved_absolute sh path Habs) as Hres.
  split; [exact Hres|].
  unfold absolute_from_relative at 1. rewrite Hres. reflexivity.
Qed.

Lemma absolute_from_relative_idempotent_witness :
  absolute_from_relative (mkShell "/sd/" 0)
    (absolute_from_relative (mkShell "/sd/" 0) "gcode/part.g") =
  absolute_from_relative (mkShell "/sd/" 0) "gcode/part.g".
Proof.
  apply (absolute_from_relative_idempotent (mkShell "/sd/" 0) "gcode/part.g").
  reflexivity.
Defined.

(** One input keeps the session invariant, and a device reset is paid for
    by a countdown that was running or by a [reset] command. *)
Lemma step_session_inv :
  forall opendir sh i,
    session_inv sh ->
    exists sh1 out,
      step opendir sh i = Some (sh1, out)
      /\ session_inv sh1
      /\ (device_resets out + armed sh1 <=
          armed sh + (if is_reset_command i then 1 else 0))%nat.
Proof.
  intros opendir sh i (Habs & Hend & Hd).
  pose proof (char0_slash_not_empty _ Habs) as Hne.
  destruct i as [|p|p|p]; simpl.
  - unfold on_second_tick, armed.
    destruct (Z.ltb_spec 0 (reset_delay_secs sh)) as [Hpos|Hz].
    + eexists _, _. split; [reflexivity|]. split.
      * unfold session_inv. simpl. repeat split; try assumption; lia.
      * simpl reset_delay_secs.
        destruct (Z.eqb_spec (reset_delay_secs sh - 1) 0) as [Hz|Hnz];
          destruct (Z.ltb_spec 0 (reset_delay_secs sh - 1)); simpl; lia.
    + eexists _, _. split; [reflexivity|]. split.
      * exact (conj Habs (conj Hend Hd)).
      * destruct (Z.ltb_spec 0 (reset_delay_secs sh)); simpl; lia.
  - rewrite (cd_command_eq opendir sh p Hne). cbv zeta.
    pose proof (resolved_not_empty sh p Hne) as Hres.
    destruct (opendir _); eexists _, _; (split; [reflexivity|]).
    + split.
      * unfold session_inv. simpl. split; [|split; [|exact Hd]].
        -- rewrite with_trailing_slash_char0 by exact Hres.
           apply resolved_absolute. exact Habs.
        -- apply with_trailing_slash_ends. exact Hres.
      * unfold armed. simpl. lia.
    + split; [exact (conj Habs (conj Hend Hd))|]. unfold armed. simpl. lia.
  - eexists _, _. split; [reflexivity|].
    split; [exact (conj Habs (conj Hend Hd))|]. unfold armed. simpl. lia.
  - eexists _, _. split; [reflexivity|]. split.
    + unfold session_inv. simpl. repeat split; try assumption; lia.
    + unfold armed. simpl.
      destruct (0 <? reset_delay_secs sh); simpl; lia.
Qed.

Lemma run_session_inv :
  forall opendir ins sh,
    session_inv sh ->
    exists sh1 out,
      run opendir sh ins = Some (sh1, out)
      /\ session_inv sh1
      /\ (device_resets out + armed sh1 <= armed sh + reset_commands ins)%nat.
Proof.
  intros opendir ins. induction ins as [|i rest IH]; intros sh Hinv.
  - exists sh, []. split; [reflexivity|]. split; [exact Hinv|].
    unfold device_resets, reset_commands. simpl. lia.
  - destruct (step_session_inv opendir sh i Hinv)
      as (sh1 & out1 & Hstep & Hinv1 & Hc1).
    destruct (IH sh1 Hinv1) as (sh2 & out2 & Hrun & Hinv2 & Hc2).
    exists sh2, (out1 ++ out2). split; [|split; [exact Hinv2|]].
    + simpl. rewrite Hstep, Hrun. reflexivity.
    + rewrite device_resets_app.
      assert (Hr : reset_commands (i :: rest) =
                   ((if is_reset_command i then 1 else 0)
                    + reset_commands rest)%nat).
      { unfold reset_commands. simpl. destruct (is_reset_command i); reflexivity. }
      rewrite Hr. lia.
Qed.

Lemma on_module_loaded_inv : session_inv on_module_loaded.
Proof. unfold session_inv, ends_with_slash. simpl. repeat split; lia. Qed.

(** X2: whatever ticks and [cd], [pwd], [reset] commands follow the loading
    of the module, every one of them is well defined ([cd] never reads
    before the start of an empty path), the current path starts and ends
    with ['/'], and the countdown stays between 0 and 5. *)
Theorem session_invariant :
  forall (opendir : string -> bool) (ins : list input),
    exists sh out,
      run opendir on_module_loaded ins = Some (sh, out)
      /\ char0 (current_path sh) = "/"%char
      /\ ends_with_slash (current_path sh)
      /\ 0 <= reset_delay_secs sh <= 5.
Proof.
  intros opendir ins.
  destruct (run_session_inv opendir ins on_module_loaded on_module_loaded_inv)
    as (sh & out & Hrun & (Habs & Hend & Hd) & _).
  exists sh, out. repeat split; assumption || lia.
Qed.

(** X3: the device is never reset more often than [reset] was commanded; in
    particular a session in which [reset] is never typed never resets the
    device, whatever the ticks. *)
Theorem device_reset_needs_reset_command :
  forall (opendir : string -> bool) (ins : list input),
    exists sh out,
      run opendir on_module_loaded ins = Some (sh, out)
      /\ (device_resets out <= reset_commands ins)%nat.
Proof.
  intros opendir ins.
  destruct (run_session_inv opendir ins on_module_loaded on_module_loaded_inv)
    as (sh & out & Hrun & _ & Hc).
  exists sh, out. split; [exact Hrun|].
  change (armed on_module_loaded) with 0%nat in Hc. lia.
Qed.

(** X4: in a session whose current path ends with ['/'], [cd] with a token
    that starts with ['.'] ([cd .], [cd ..], [cd ./sub]) leaves the session
    where it is, whether the directory opens or not. *)
Theorem cd_dot_stays :
  forall (opendir : string -> bool) (sh : SimpleShell) (rest : string),
    ends_with_slash (current_path sh) ->
    exists out, cd_command opendir sh (String "." rest) = Some (sh, out).
Proof.
  intros opendir sh rest Hend.
  assert (Hne : current_path sh <> EmptyString).
  { intros H. unfold ends_with_slash in Hend. rewrite H in Hend. discriminate. }
  rewrite (cd_command_eq opendir sh (String "." rest) Hne). cbv zeta.
  change (absolute_from_relative sh (String "." rest)) with (current_path sh).
  rewrite (with_trailing_slash_fixed _ Hend).
  destruct (opendir _); eexists; [|reflexivity].
  destruct sh as [p d]. reflexivity.
Qed.

Lemma cd_dot_stays_witness :
  exists out,
    cd_command (fun _ => true) (mkShell "/sd/gcode/" 0) ".." =
    Some (mkShell "/sd/gcode/" 0, out).
Proof.
  apply (cd_dot_stays (fun _ => true) (mkShell "/sd/gcode/" 0) ".").
  reflexivity.
Defined.

(** X5: relative [cd] commands compose: when both directories open, [cd a]
    followed by [cd b] ends in the same directory as a single [cd] to [a],
    a ['/'] if [a] has none at its end, and [b]. *)
Theorem cd_relative_composes :
  forall (opendir : string -> bool) (sh : SimpleShell) (a b : string),
    current_path sh <> EmptyString ->
    a <> EmptyString ->
    char0 a <> "/"%char -> char0 a <> "."%char ->
    char0 b <> "/"%char -> char0 b <> "."%char ->
    let d1 := with_trailing_slash (current_path sh ++ a) in
    let d2 := with_trailing_slash (d1 ++ b) in
    opendir (c_str d1) = true ->
    opendir (c_str d2) = true ->
    run opendir sh [ConsoleCd a; ConsoleCd b] =
      Some (set_current_path sh d2, [Closedir (c_str d1); Closedir (c_str d2)])
    /\ run opendir sh [ConsoleCd (with_trailing_slash a ++ b)] =
         Some (set_current_path sh d2, [Closedir (c_str d2)]).
Proof.
  intros opendir sh a b Hne Ha Ha1 Ha2 Hb1 Hb2 d1 d2 Ho1 Ho2.
  assert (Hplain : forall s p, char0 p <> "/"%char -> char0 p <> "."%char ->
            absolute_from_relative s p = (current_path s ++ p)%string).
  { intros s p H1 H2. unfold absolute_from_relative.
    destruct (Ascii.eqb_spec (char0 p) "/"); [contradiction|].
    destruct (Ascii.eqb_spec (char0 p) "."); [contradiction|]. reflexivity. }
  assert (Hd1 : d1 = (current_path sh ++ with_trailing_slash a)%string)
    by (apply with_trailing_slash_app; exact Ha).
  assert (Hd1ne : d1 <> EmptyString).
  { rewrite Hd1. intros H. apply append_empty in H. contradiction. }
  split.
  - cbn [run step].
    rewrite (cd_command_eq opendir sh a Hne). cbv zeta.
    rewrite (Hplain sh a Ha1 Ha2). fold d1. rewrite Ho1.
    rewrite (cd_command_eq opendir (set_current_path sh d1) b Hd1ne). cbv zeta.
    rewrite (Hplain _ b Hb1 Hb2). cbn [current_path set_current_path].
    fold d2. rewrite Ho2. reflexivity.
  - cbn [run step].
    rewrite (cd_command_eq opendir sh _ Hne). cbv zeta.
    assert (Hc : char0 (with_trailing_slash a ++ b) = char0 a).
    { rewrite char0_app.
      - apply with_trailing_slash_char0. exact Ha.
      - intros H. pose proof (with_trailing_slash_ends a Ha) as He.
        unfold ends_with_slash in He. rewrite H in He. discriminate. }
    rewrite (Hplain sh (with_trailing_slash a ++ b)%string)
      by (rewrite Hc; assumption).
    rewrite <- append_assoc, <- Hd1. fold d2. rewrite Ho2. reflexivity.
Qed.

Lemma cd_relative_composes_witness :
  run (fun _ => true) on_module_loaded [ConsoleCd "sd"; ConsoleCd "gcode"] =
    Some (mkShell "/sd/gcode/" 0, [Closedir "/sd/"; Closedir "/sd/gcode/"])
  /\ run (fun _ => true) on_module_loaded [ConsoleCd "sd/gcode"] =
       Some (mkShell "/sd/gcode/" 0, [Closedir "/sd/gcode/"]).
Proof.
  apply (cd_relative_composes (fun _ => true) on_module_loaded "sd" "gcode");
    try reflexivity; simpl; discriminate.
Defined.

(** ** Dispatcher *)

(** X6: on a table that ends with a null handler, [parse_command] returns
    [true] exactly when an entry before that null handler has the
    fingerprint looked for, and when it returns [false] nothing was called;
    the fingerprint stored in the null entry itself is never compared. *)
Theorem parse_command_found :
  forall (world : Type) (call : PFUNC -> string -> world -> world)
         (table : list ptentry_t) (cs : Z) (args : string) (w : world),
    has_sentinel table ->
    exists w1 found,
      parse_command world call table cs args w = Some (w1, found)
      /\ (found = true <-> In cs (map fst (live_entries table)))
      /\ (found = false -> w1 = w).
Proof.
  intros world call table cs args w Hs.
  rewrite (parse_command_lookup world call table cs args w Hs).
  unfold lookup.
  destruct (find (fun e => cs =? fst e) (live_entries table)) as [[c f]|] eqn:E.
  - exists (call f args w), true. split; [reflexivity|]. split.
    + split; [|reflexivity]. intros _.
      apply find_some in E. destruct E as [Hin Heq]. simpl in Heq.
      apply Z.eqb_eq in Heq. subst c.
      apply (in_map fst) in Hin. exact Hin.
    + discriminate.
  - exists w, false. split; [reflexivity|]. split; [|reflexivity].
    split; [discriminate|]. intros Hin. apply in_map_iff in Hin.
    destruct Hin as (e & He & Hin).
    pose proof (find_none _ _ E e Hin) as Hn. simpl in Hn.
    rewrite He, Z.eqb_refl in Hn. discriminate.
Qed.

Lemma parse_command_found_witness :
  exists w1 found,
    parse_command call_log log_call (commands_table example_checksum)
      0 "x" [] = Some (w1, found)
    /\ (found = true <->
        In 0 (map fst (live_entries (commands_table example_checksum))))
    /\ (found = false -> w1 = []).
Proof.
  apply (parse_command_found call_log log_call
           (commands_table example_checksum) 0 "x" []).
  apply commands_table_has_sentinel.
Defined.

Lemma commands_table_live :
  forall CHECKSUM,
    live_entries (commands_table CHECKSUM) =
    map (fun e => (CHECKSUM (fst e), snd e)) command_keywords.
Proof. intros CHECKSUM. reflexivity. Qed.

(** X7: with the shipped table, if the fourteen keywords have pairwise
    different checksums, a line that is no comment and whose first token
    has the checksum of a keyword calls the handler of that keyword, once,
    with the arguments of the line. *)
Theorem commands_table_dispatch :
  forall (CHECKSUM get_checksum : string -> Z)
         (get_arguments : string -> string)
         (world : Type) (call : PFUNC -> string -> world -> world)
         (message : string) (w : world) (keyword : string) (fnc : PFUNC),
    NoDup (map (fun e => CHECKSUM (fst e)) command_keywords) ->
    In (keyword, fnc) command_keywords ->
    char0 message <> ";"%char ->
    get_checksum (first_token message) = CHECKSUM keyword ->
    on_console_line_received get_checksum get_arguments world call
      (commands_table CHECKSUM) message w =
    Some (call fnc (get_arguments message) w).
Proof.
  intros CHECKSUM get_checksum get_arguments world call message w keyword fnc
         Hnd Hin Hc Hcs.
  unfold on_console_line_received.
  destruct (Ascii.eqb_spec (char0 message) ";") as [Heq|_]; [contradiction|].
  rewrite (parse_command_lookup world call _ _ _ w
             (commands_table_has_sentinel CHECKSUM)).
  rewrite (lookup_unique (commands_table CHECKSUM)
             (get_checksum (first_token message)) (CHECKSUM keyword, fnc)).
  - reflexivity.
  - rewrite commands_table_live, map_map. simpl. exact Hnd.
  - rewrite commands_table_live.
    apply (in_map (fun e => (CHECKSUM (fst e), snd e)) _ _ Hin).
  - simpl. symmetry. exact Hcs.
Qed.

Lemma example_checksum_NoDup :
  NoDup (map (fun e => example_checksum (fst e)) command_keywords).
Proof. vm_compute. repeat constructor; simpl; intuition discriminate. Qed.

Lemma commands_table_dispatch_witness :
  on_console_line_received example_checksum example_arguments call_log
    log_call (commands_table example_checksum) "set_temp bed 60" [] =
  Some [(fn_set_temp, "bed 60")].
Proof.
  apply (commands_table_dispatch example_checksum example_checksum
           example_arguments call_log log_call "set_temp bed 60" []
           "set_temp" fn_set_temp example_checksum_NoDup).
  - simpl. do 12 right. left. reflexivity.
  - simpl. discriminate.
  - reflexivity.
Defined.

(** X8: the keyword cut from a line holds no space, carriage return or
    newline, and the line is that keyword followed by nothing or by a text
    that starts with one of these three characters; a line that starts with
    one of them has an empty keyword. *)
Theorem first_token_splits :
  forall line : string,
    no_delimiter (first_token line) = true
    /\ (exists rest,
          line = (first_token line ++ rest)%string
          /\ (rest = EmptyString \/ mem_char (char0 rest) delimiters = true))
    /\ (mem_char (char0 line) delimiters = true ->
        first_token line = EmptyString).
Proof.
  intros line. unfold first_token. fold delimiters.
  split; [|split].
  - induction line as [|c r IH]; [reflexivity|].
    cbn [substr_to_first_of].
    destruct (mem_char c delimiters) eqn:E; [reflexivity|].
    cbn [no_delimiter]. rewrite E. exact IH.
  - induction line as [|c r (rest & IHl & IHr)].
    + exists EmptyString. split; [reflexivity | left; reflexivity].
    + cbn [substr_to_first_of].
      destruct (mem_char c delimiters) eqn:E.
      * exists (String c r). split; [reflexivity | right; exact E].
      * exists rest. split; [|exact IHr].
        cbn [String.append]. rewrite <- IHl. reflexivity.
  - destruct line as [|c r]; [discriminate|].
    cbn [char0 substr_to_first_of]. intros H. rewrite H. reflexivity.
Qed.

(** ** Heap walk and mem *)

Lemma land_clear_low3 :
  forall x, 0 <= x < 2 ^ 32 -> Z.land x (wrap32 (Z.lnot 7)) = 8 * (x / 8).
Proof.
  intros x Hx.
  change (wrap32 (Z.lnot 7)) with (Z.ldiff (Z.ones 32) (Z.ones 3)).
  assert (H : Z.land x (Z.ldiff (Z.ones 32) (Z.ones 3)) =
              Z.ldiff (Z.land x (Z.ones 32)) (Z.ones 3)).
  { apply Z.bits_inj'. intros n Hn.
    rewrite Z.land_spec, !Z.ldiff_spec, Z.land_spec. apply andb_assoc. }
  rewrite H, Z.land_ones by lia.
  rewrite Z.mod_small by exact Hx.
  rewrite Z.ldiff_ones_r by lia.
  rewrite Z.shiftr_div_pow2, Z.shiftl_mul_pow2 by lia.
  change (2 ^ 3) with 8. lia.
Qed.

(** X9: the address printed for a chunk is 8-byte aligned and is the first
    such address at or after the end of the size word, as long as the
    rounding stays inside the 32-bit address space. *)
Theorem align8_rounds_up :
  forall p : Z,
    0 <= p -> p + 7 < 2 ^ 32 ->
    align8 p mod 8 = 0 /\ p <= align8 p < p + 8.
Proof.
  intros p Hp Hend. unfold align8.
  rewrite (wrap32_small (p + 7)) by lia.
  rewrite land_clear_low3 by lia.
  pose proof (Z.div_mod (p + 7) 8 ltac:(lia)) as Hdm.
  pose proof (Z.mod_pos_bound (p + 7) 8 ltac:(lia)) as Hr.
  split; [|lia].
  rewrite Z.mul_comm. apply Z.mod_mul. lia.
Qed.

Lemma align8_rounds_up_witness :
  align8 4100 mod 8 = 0 /\ 4100 <= align8 4100 < 4100 + 8.
Proof. apply (align8_rounds_up 4100); lia. Defined.

Lemma heapWalk_loop_zero_header :
  forall mem heapEnd verbose fuel st,
    0 <= chunkCurr st < 2 ^ 32 ->
    chunkCurr st < heapEnd ->
    load32 mem (chunkCurr st) = 0 ->
    heapWalk_loop fuel mem heapEnd verbose st = None.
Proof.
  intros mem heapEnd verbose fuel.
  induction fuel as [|fuel IH]; intros st Hr Hlt Hz; cbn [heapWalk_loop];
    destruct (Z.ltb_spec (chunkCurr st) heapEnd) as [_|Hge]; try lia;
    [reflexivity|].
  destruct (heapWalk_body mem verbose st) as [st1 out1] eqn:Hbody.
  assert (Hcur : chunkCurr st1 = chunkCurr st).
  { unfold heapWalk_body in Hbody. inversion Hbody. cbn [chunkCurr].
    rewrite Hz, Z.add_0_r. apply wrap32_small. exact Hr. }
  rewrite IH by (rewrite Hcur; assumption). reflexivity.
Qed.

(** X10: a chunk whose size word is zero stops the walk from advancing: the
    loop stays on that chunk and the walk does not end, however many
    iterations it is given. *)
Theorem heapWalk_zero_header_hangs :
  forall (mem : Z -> Z) (heapStart freeHead heapEnd : Z) (verbose : bool)
         (fuel : nat),
    0 <= heapStart < 2 ^ 32 ->
    heapStart < heapEnd ->
    load32 mem heapStart = 0 ->
    heapWalk fuel mem heapStart freeHead heapEnd verbose = None.
Proof.
  intros mem heapStart freeHead heapEnd verbose fuel Hr Hlt Hz.
  unfold heapWalk.
  rewrite heapWalk_loop_zero_header; [reflexivity| | |]; cbn [chunkCurr];
    assumption.
Qed.

Lemma heapWalk_zero_header_hangs_witness :
  heapWalk 1000 zero_header_mem 4096 0 4184 true = None.
Proof.
  apply (heapWalk_zero_header_hangs zero_header_mem 4096 0 4184 true 1000);
    [lia | lia | reflexivity].
Defined.

(** What [heapWalk] prints on a well-formed heap. *)
Lemma heapWalk_output :
  forall mem heapStart freeHead heapEnd chunks verbose fuel,
    heap_layout mem heapStart heapEnd chunks ->
    (List.length chunks <= fuel)%nat ->
    let report := classify mem freeHead chunks in
    heapWalk fuel mem heapStart freeHead heapEnd verbose =
      Some (Printf "Used Heap Size: %lu\n" [ArgU (heapEnd - heapStart)]
            :: lines_if_verbose verbose 1 report
            ++ [Printf "Allocated: %lu, Free: %lu\r\n"
                  [ArgU (used_total report); ArgU (free_total report)]]).
Proof.
  intros mem heapStart freeHead heapEnd chunks verbose fuel
         [Hstart Hend Hlay Hsz] Hfuel report.
  pose proof (laid_out_le _ _ _ _ Hlay) as Hle.
  pose proof (laid_out_extent _ _ _ _ Hlay) as Hext.
  destruct (totals_le_raw mem freeHead chunks Hsz) as [Hub Hfb].
  fold report in Hub, Hfb.
  unfold heapWalk.
  destruct (heapWalk_loop_report mem heapEnd verbose chunks heapStart
              {| chunkNumber := 1; chunkCurr := heapStart;
                 freeCurr := freeHead; freeSize := 0; usedSize := 0 |} fuel)
    as (st1 & Hloop & Hu & Hf); simpl; try assumption; try lia; try reflexivity.
  rewrite Hloop. simpl in Hu, Hf. rewrite Hu, Hf. fold report.
  rewrite !wrap32_small by lia.
  reflexivity.
Qed.

Lemma sum_adjusted_classify :
  forall mem f l,
    sum_adjusted (classify mem f l) =
    fold_right (fun c acc => snd c + acc) 0 l - 8 * Z.of_nat (List.length l).
Proof.
  intros mem f l. revert f. induction l as [|c l IH]; intros f; [reflexivity|].
  cbn [classify sum_adjusted fold_right fst List.length].
  fold (sum_adjusted
          (classify mem
             (if fst c =? f then load32 mem (wrap32 (f + 4)) else f) l)).
  rewrite IH, Nat2Z.inj_succ. unfold adjusted. lia.
Qed.

Lemma chunk_lines_length :
  forall report n, List.length (chunk_lines n report) = List.length report.
Proof.
  induction report as [|[c free] l IH]; intros n; simpl; [reflexivity|].
  rewrite IH. reflexivity.
Qed.

Lemma classify_length :
  forall mem l f, List.length (classify mem f l) = List.length l.
Proof.
  intros mem l. induction l as [|c l IH]; intros f; simpl; [reflexivity|].
  rewrite IH. reflexivity.
Qed.

(** X11: on a well-formed heap the two totals of the last line fall short
    of the heap size of the first line by exactly 8 bytes per chunk, and
    the verbose walk prints one line per chunk, the plain walk none. *)
Theorem heapWalk_overhead :
  forall (mem : Z -> Z) (heapStart freeHead heapEnd : Z)
         (chunks : list (Z * Z)) (verbose : bool) (fuel : nat),
    heap_layout mem heapStart heapEnd chunks ->
    (List.length chunks <= fuel)%nat ->
    exists used free lines,
      heapWalk fuel mem heapStart freeHead heapEnd verbose =
        Some (Printf "Used Heap Size: %lu\n" [ArgU (heapEnd - heapStart)]
              :: lines
              ++ [Printf "Allocated: %lu, Free: %lu\r\n" [ArgU used; ArgU free]])
      /\ used + free + 8 * Z.of_nat (List.length chunks) = heapEnd - heapStart
      /\ List.length lines = (if verbose then List.length chunks else 0%nat).
Proof.
  intros mem heapStart freeHead heapEnd chunks verbose fuel Hlayout Hfuel.
  pose proof (heapWalk_output mem heapStart freeHead heapEnd chunks verbose
                fuel Hlayout Hfuel) as Hout. cbv zeta in Hout.
  destruct Hlayout as [Hstart Hend Hlay Hsz].
  eexists _, _, _. split; [exact Hout|]. split.
  - rewrite totals_split, sum_adjusted_classify.
    rewrite (laid_out_extent _ _ _ _ Hlay). lia.
  - unfold lines_if_verbose. destruct verbose; [|reflexivity].
    rewrite chunk_lines_length. apply classify_length.
Qed.

Lemma heapWalk_overhead_witness :
  exists used free lines,
    heapWalk 4 example_mem 4096 4112 4184 false =
      Some (Printf "Used Heap Size: %lu\n" [ArgU (4184 - 4096)]
            :: lines
            ++ [Printf "Allocated: %lu, Free: %lu\r\n" [ArgU used; ArgU free]])
    /\ used + free + 8 * Z.of_nat (List.length example_chunks) = 4184 - 4096
    /\ List.length lines = 0%nat.
Proof.
  apply (heapWalk_overhead example_mem 4096 4112 4184 example_chunks false 4
           example_heap_layout (le_n 4)).
Defined.

(** X12: on a well-formed heap below the heap ceiling, [mem] first prints
    the distance from the heap end to the ceiling and then the walk: the
    heap size, a line per chunk when verbose, and the totals.  The walk is
    verbose exactly when the first parameter holds a ['V'] or a ['v']
    somewhere, so the reply has three lines, or three and one per chunk. *)
Theorem mem_command_lines :
  forall (shift_parameter : string -> string * string)
         (mem : Z -> Z) (heapStart freeHead heapEnd ceiling : Z)
         (chunks : list (Z * Z)) (parameters : string) (fuel : nat),
    heap_layout mem heapStart heapEnd chunks ->
    (List.length chunks <= fuel)%nat ->
    heapEnd <= ceiling < 2 ^ 32 ->
    let verbose := contains_any "Vv" (fst (shift_parameter parameters)) in
    let report := classify mem freeHead chunks in
    let walked :=
      Printf "Used Heap Size: %lu\n" [ArgU (heapEnd - heapStart)]
      :: lines_if_verbose verbose 1 report
      ++ [Printf "Allocated: %lu, Free: %lu\r\n"
            [ArgU (used_total report); ArgU (free_total report)]] in
    mem_command shift_parameter fuel mem heapStart freeHead heapEnd ceiling
      parameters =
      Some (Printf "Unused Heap: %lu bytes\r\n" [ArgU (ceiling - heapEnd)]
            :: walked)
    /\ heapWalk fuel mem heapStart freeHead heapEnd verbose = Some walked
    /\ List.length walked =
         (2 + (if verbose then List.length chunks else 0))%nat.
Proof.
  intros shift_parameter mem heapStart freeHead heapEnd ceiling chunks
         parameters fuel Hlayout Hfuel Hceil verbose report walked.
  pose proof (heapWalk_output mem heapStart freeHead heapEnd chunks verbose
                fuel Hlayout Hfuel) as Hwalk.
  cbv zeta in Hwalk. fold report in Hwalk. fold walked in Hwalk.
  destruct Hlayout as [Hstart Hend Hlay Hsz].
  pose proof (laid_out_le _ _ _ _ Hlay) as Hle.
  split; [|split; [exact Hwalk|]].
  - unfold mem_command. fold verbose. rewrite Hwalk.
    rewrite wrap32_small by lia. reflexivity.
  - subst walked. cbn [List.length]. rewrite length_app. cbn [List.length].
    unfold lines_if_verbose. destruct verbose.
    + subst report. rewrite chunk_lines_length, classify_length. lia.
    + simpl. lia.
Qed.

Lemma mem_command_lines_witness :
  mem_command example_shift_parameter 4 example_mem 4096 4112 4184 32768
    "-v" =
    Some [Printf "Unused Heap: %lu bytes\r\n" [ArgU 28584];
          Printf "Used Heap Size: %lu\n" [ArgU 88];
          Printf chunk_fmt [ArgU 1; ArgU 4104; ArgU 8; ArgS ""];
          Printf chunk_fmt [ArgU 2; ArgU 4120; ArgU 16; ArgS "CHUNK FREE"];
          Printf chunk_fmt [ArgU 3; ArgU 4144; ArgU 8; ArgS ""];
          Printf chunk_fmt [ArgU 4; ArgU 4160; ArgU 24; ArgS "CHUNK FREE"];
          Printf "Allocated: %lu, Free: %lu\r\n" [ArgU 16; ArgU 40]].
Proof.
  assert (Hceil : 4184 <= 32768 < 2 ^ 32) by lia.
  exact (proj1 (mem_command_lines example_shift_parameter example_mem 4096
                  4112 4184 32768 example_chunks "-v" 4 example_heap_layout
                  (le_n 4) Hceil)).
Defined.

(** ** ls and the M20 / M30 codes *)

Lemma nth_error_last :
  forall (l : list strobj) (o : strobj),
    nth_error (l ++ [o]) (List.length l) = Some o.
Proof.
  intros l o. rewrite nth_error_app2 by lia.
  rewrite Nat.sub_diag. reflexivity.
Qed.

Lemma kill_last :
  forall (l : list strobj) (o : strobj),
    kill (List.length l) (l ++ [o]) = l ++ [mkStr (chars o) false].
Proof.
  induction l as [|x l IH]; intros o; simpl; [reflexivity|].
  rewrite IH. reflexivity.
Qed.

Lemma emit_names_trace :
  forall (line : string -> effect) (last : effect) names st,
    fold_right (fun name k => emit (line name) ;;; k) (emit last) names st =
    Done tt {| objects := objects st;
               trace := trace st ++ map line names ++ [last] |}.
Proof.
  intros line last names. induction names as [|n names IH]; intros st.
  - reflexivity.
  - cbn [fold_right map]. erewrite bind_done by reflexivity.
    rewrite IH. cbn [objects trace]. rewrite <- app_assoc. reflexivity.
Qed.

(** [ls_command] from any state of the string objects. *)
Lemma ls_command_run :
  forall opendir_entries lc sh parameters st,
    let folder := absolute_from_relative sh parameters in
    ls_command opendir_entries lc sh parameters st =
    Done tt {| objects := objects st ++ [mkStr folder false];
               trace := trace st
                        ++ ls_output opendir_entries lc (c_str folder) |}.
Proof.
  intros opendir_entries lc sh parameters st folder.
  unfold ls_command. fold folder.
  erewrite bind_done by reflexivity.
  erewrite bind_done
    by (unfold read_c_str; cbn [objects]; rewrite nth_error_last; reflexivity).
  unfold ls_output. cbn [chars].
  destruct (opendir_entries (c_str folder)) as [names|].
  - erewrite bind_done by apply emit_names_trace.
    unfold destroy. cbn [objects trace]. rewrite kill_last. reflexivity.
  - erewrite bind_done.
    2:{ erewrite bind_done
          by (unfold read_c_str; cbn [objects]; rewrite nth_error_last;
              reflexivity).
        reflexivity. }
    unfold destroy. cbn [objects trace]. rewrite kill_last. reflexivity.
Qed.

(** X13: [ls] prints one line per directory entry, in the order [readdir]
    yields them, each lower-cased, and then closes the directory; when the
    directory does not open it prints one error line and closes nothing.
    The resolved path is read only while its string is alive, and that
    string is destroyed when the command returns. *)
Theorem ls_command_lists :
  forall (opendir_entries : string -> option (list string))
         (lc : string -> string) (sh : SimpleShell) (parameters : string),
    let folder := absolute_from_relative sh parameters in
    ls_command opendir_entries lc sh parameters start =
    Done tt
      {| objects := [mkStr folder false];
         trace :=
           match opendir_entries (c_str folder) with
           | Some names =>
               map (fun name => Printf "%s\r\n" [ArgS (c_str (lc name))]) names
               ++ [Closedir (c_str folder)]
           | None =>
               [Printf "Could not open directory %s \r\n" [ArgS (c_str folder)]]
           end |}.
Proof.
  intros opendir_entries lc sh parameters folder.
  exact (ls_command_run opendir_entries lc sh parameters start).
Qed.

(** X14: the code M20 lists the directory [/sd], whatever the current path
    of the session, between the lines "Begin file list" and "End file
    list", and is marked as taken; a G-code without an M word, or with an M
    number other than 20 and 30, is left alone: nothing is printed and it
    is not marked as taken. *)
Theorem on_gcode_received_m20 :
  forall (get_arguments : string -> string)
         (shift_parameter : string -> string * string) (remove : string -> Z)
         (opendir_entries : string -> option (list string))
         (lc : string -> string) (sh : SimpleShell),
    (forall text : string,
       on_gcode_received get_arguments shift_parameter remove opendir_entries
         lc sh (mkGcode text true 20) start =
       Done true
         {| objects := [mkStr "/sd" false];
            trace := Printf "Begin file list\r\n" []
                     :: ls_output opendir_entries lc "/sd"
                     ++ [Printf "End file list\r\n" []] |})
    /\ (forall gcode : Gcode,
          has_m gcode = false \/ (m gcode <> 20 /\ m gcode <> 30) ->
          on_gcode_received get_arguments shift_parameter remove
            opendir_entries lc sh gcode start = Done false start).
Proof.
  intros get_arguments shift_parameter remove opendir_entries lc sh. split.
  - intros text. unfold on_gcode_received. cbn [has_m m Z.eqb Pos.eqb].
    erewrite bind_done by reflexivity.
    erewrite bind_done by apply ls_command_run.
    erewrite bind_done by reflexivity.
    reflexivity.
  - intros gcode Hother. unfold on_gcode_received.
    destruct (has_m gcode); [|reflexivity].
    destruct Hother as [Hm|[H20 H30]]; [discriminate|].
    destruct (Z.eqb_spec (m gcode) 20); [contradiction|].
    destruct (Z.eqb_spec (m gcode) 30); [contradiction|]. reflexivity.
Qed.

(** ** cat *)

Lemma string_length_app :
  forall a b : string,
    String.length (a ++ b)%string = (String.length a + String.length b)%nat.
Proof.
  induction a as [|c a IH]; intros b; simpl; [reflexivity|].
  rewrite IH. reflexivity.
Qed.

Lemma c_str_length :
  forall s, (String.length (c_str s) <= String.length s)%nat.
Proof.
  induction s as [|c r IH]; simpl; [lia|].
  destruct (Ascii.eqb c "000"); simpl; lia.
Qed.

Lemma c_str_no_nul : forall s, no_nul s = true -> c_str s = s.
Proof.
  induction s as [|c r IH]; simpl; intros H; [reflexivity|].
  apply andb_true_iff in H. destruct H as [Hc Hr].
  apply negb_true_iff in Hc. rewrite Hc, (IH Hr). reflexivity.
Qed.

Lemma no_nul_app :
  forall a b, no_nul (a ++ b)%string = no_nul a && no_nul b.
Proof.
  induction a as [|c a IH]; intros b; simpl; [reflexivity|].
  rewrite IH. apply andb_assoc.
Qed.

Lemma flushed_app :
  forall a b, flushed (a ++ b) = flushed a ++ flushed b.
Proof. intros a b. unfold flushed. apply flat_map_app. Qed.

Lemma emitted_app :
  forall a b, emitted (a ++ b) = (emitted a ++ emitted b)%string.
Proof.
  intros a b. unfold emitted. rewrite flushed_app.
  induction (flushed a) as [|s l IH]; simpl; [reflexivity|].
  rewrite IH, append_assoc. reflexivity.
Qed.

Lemma emitted_puts : forall s, emitted [Puts s] = s.
Proof. intros s. unfold emitted. simpl. apply append_nil_r. Qed.

(** One step of the loop, by the two tests it makes. *)
Lemma cat_loop_step :
  forall limit c rest buffer newlines linecnt,
    let buffer1 := (buffer ++ String c EmptyString)%string in
    let linecnt1 := if Ascii.eqb c LF then linecnt else linecnt + 1 in
    cat_loop limit (String c rest) buffer newlines linecnt =
    if Ascii.eqb c LF || (80 <? linecnt1) then
      Puts (c_str buffer1)
      :: (if newlines + 1 =? limit then []
          else cat_loop limit rest EmptyString (newlines + 1)
                 (if 80 <? linecnt1 then 0 else linecnt1))
    else
      if newlines =? limit then []
      else cat_loop limit rest buffer1 newlines linecnt1.
Proof.
  intros limit c rest buffer newlines linecnt buffer1 linecnt1.
  cbn [cat_loop]. fold buffer1. fold linecnt1.
  destruct (Ascii.eqb c LF || (80 <? linecnt1)); cbn [andb].
  - destruct (newlines + 1 =? limit); reflexivity.
  - destruct (newlines =? limit); reflexivity.
Qed.

Lemma cat_loop_flush_bound :
  forall limit rest buffer newlines linecnt,
    Z.of_nat (String.length buffer) <= linecnt <= 80 ->
    Forall (fun s => (String.length s <= 81)%nat)
      (flushed (cat_loop limit rest buffer newlines linecnt)).
Proof.
  intros limit rest. induction rest as [|c rest IH];
    intros buffer newlines linecnt Hb; [constructor|].
  rewrite cat_loop_step.
  assert (Hlen : (String.length (c_str (buffer ++ String c EmptyString))
                  <= 81)%nat).
  { pose proof (c_str_length (buffer ++ String c EmptyString)) as H.
    rewrite string_length_app in H. simpl in H. lia. }
  assert (Hlen1 : String.length (buffer ++ String c EmptyString)
                  = S (String.length buffer)).
  { rewrite string_length_app. simpl. lia. }
  destruct (Ascii.eqb c LF); cbn [orb].
  - change (flushed (?e :: ?l)) with (flushed [e] ++ flushed l).
    constructor; [exact Hlen|].
    destruct (newlines + 1 =? limit); [constructor|].
    destruct (Z.ltb_spec 80 linecnt); [lia|]. apply IH. simpl. lia.
  - destruct (Z.ltb_spec 80 (linecnt + 1)).
    + constructor; [exact Hlen|].
      destruct (newlines + 1 =? limit); [constructor|].
      apply IH. simpl. lia.
    + destruct (newlines =? limit); [constructor|].
      apply IH. rewrite Hlen1, Nat2Z.inj_succ. lia.
Qed.

(** X15: no text that [cat] writes is longer than 81 bytes, whatever the
    file and the limit. *)
Theorem cat_flushes_at_most_81_bytes :
  forall (limit : Z) (contents : string),
    Forall (fun s => (String.length s <= 81)%nat)
      (flushed (cat_loop limit contents EmptyString 0 0)).
Proof.
  intros limit contents. apply cat_loop_flush_bound. simpl. lia.
Qed.

Lemma cat_loop_prefix :
  forall limit rest buffer newlines linecnt,
    no_nul (buffer ++ rest) = true ->
    exists tail,
      (buffer ++ rest)%string =
      (emitted (cat_loop limit rest buffer newlines linecnt) ++ tail)%string.
Proof.
  intros limit rest. induction rest as [|c rest IH];
    intros buffer newlines linecnt Hn.
  - exists buffer. rewrite append_nil_r. reflexivity.
  - rewrite cat_loop_step.
    assert (Hsplit : (buffer ++ String c rest)%string =
                     ((buffer ++ String c EmptyString) ++ rest)%string)
      by (rewrite append_assoc; reflexivity).
    rewrite Hsplit in Hn |- *. rewrite no_nul_app in Hn.
    apply andb_true_iff in Hn. destruct Hn as [Hb1 Hrest].
    destruct (Ascii.eqb c LF || _).
    + change (Puts ?s :: ?l) with ([Puts s] ++ l).
      rewrite emitted_app, emitted_puts, (c_str_no_nul _ Hb1).
      destruct (newlines + 1 =? limit).
      * exists rest. change (emitted []) with EmptyString.
        rewrite append_nil_r. reflexivity.
      * destruct (IH EmptyString (newlines + 1)
                    (if 80 <? (if Ascii.eqb c LF then linecnt else linecnt + 1)
                     then 0
                     else if Ascii.eqb c LF then linecnt else linecnt + 1)
                    Hrest)
          as (tail & Ht).
        exists tail. change (EmptyString ++ rest)%string with rest in Ht.
        rewrite (append_assoc (buffer ++ String c EmptyString) _ tail).
        f_equal. exact Ht.
    + destruct (newlines =? limit).
      * eexists. reflexivity.
      * apply IH. rewrite no_nul_app, Hb1, Hrest. reflexivity.
Qed.

(** X16: what [cat] writes is a beginning of the file: the texts written,
    put end to end, are the first bytes of the file, in order, for a file
    without NUL bytes. *)
Theorem cat_writes_a_prefix :
  forall (limit : Z) (contents : string),
    no_nul contents = true ->
    exists tail,
      contents =
      (emitted (cat_loop limit contents EmptyString 0 0) ++ tail)%string.
Proof.
  intros limit contents Hn.
  exact (cat_loop_prefix limit contents EmptyString 0 0 Hn).
Qed.

Lemma cat_writes_a_prefix_witness :
  exists tail,
    text_lines 3 10 "a" =
    (emitted (cat_loop 2 (text_lines 3 10 "a") EmptyString 0 0) ++ tail)%string.
Proof.
  apply (cat_writes_a_prefix 2 (text_lines 3 10 "a")). reflexivity.
Defined.

Lemma cat_loop_whole :
  forall limit rest buffer newlines linecnt,
    limit < 0 -> 0 <= newlines ->
    no_nul (buffer ++ rest) = true ->
    ends_with_newline rest ->
    emitted (cat_loop limit rest buffer newlines linecnt) =
    (buffer ++ rest)%string.
Proof.
  intros limit rest. induction rest as [|c rest IH];
    intros buffer newlines linecnt Hlim Hnl Hn Hend; [discriminate|].
  rewrite cat_loop_step.
  assert (Hsplit : (buffer ++ String c rest)%string =
                   ((buffer ++ String c EmptyString) ++ rest)%string)
    by (rewrite append_assoc; reflexivity).
  rewrite Hsplit in Hn |- *. rewrite no_nul_app in Hn.
  apply andb_true_iff in Hn. destruct Hn as [Hb1 Hrest].
  destruct (Z.eqb_spec (newlines + 1) limit) as [Heq|_]; [lia|].
  destruct (Z.eqb_spec newlines limit) as [Heq|_]; [lia|].
  destruct rest as [|x rest'].
  - unfold ends_with_newline in Hend. simpl in Hend.
    injection Hend as Hc. subst c.
    change (Ascii.eqb LF LF) with true. cbn [orb cat_loop].
    rewrite emitted_puts, (c_str_no_nul _ Hb1), append_nil_r. reflexivity.
  - assert (Hend' : ends_with_newline (String x rest')) by exact Hend.
    destruct (Ascii.eqb c LF || _).
    + change (Puts ?s :: ?l) with ([Puts s] ++ l).
      rewrite emitted_app, emitted_puts, (c_str_no_nul _ Hb1).
      rewrite IH by (assumption || lia). reflexivity.
    + apply IH; try assumption.
      rewrite no_nul_app, Hb1, Hrest. reflexivity.
Qed.

(** X17: without a line limit, a file that ends with a newline and holds no
    NUL byte is written completely and unchanged, however long its
    lines are. *)
Theorem cat_writes_whole_file :
  forall (limit : Z) (contents : string),
    limit < 0 ->
    no_nul contents = true ->
    ends_with_newline contents ->
    emitted (cat_loop limit contents EmptyString 0 0) = contents.
Proof.
  intros limit contents Hlim Hn Hend.
  exact (cat_loop_whole limit contents EmptyString 0 0 Hlim (Z.le_refl 0)
           Hn Hend).
Qed.

Lemma cat_writes_whole_file_witness :
  emitted (cat_loop (-1) (text_lines 2 100 "a") EmptyString 0 0) =
  text_lines 2 100 "a".
Proof.
  apply (cat_writes_whole_file (-1) (text_lines 2 100 "a"));
    [lia | reflexivity | reflexivity].
Defined.

Lemma cat_loop_limit_bound :
  forall limit rest buffer newlines linecnt,
    newlines < limit ->
    Z.of_nat (List.length (flushed (cat_loop limit rest buffer newlines linecnt)))
    <= limit - newlines.
Proof.
  intros limit rest. induction rest as [|c rest IH];
    intros buffer newlines linecnt Hlt; [simpl; lia|].
  rewrite cat_loop_step.
  destruct (Ascii.eqb c LF || _).
  - change (flushed (?e :: ?l)) with (flushed [e] ++ flushed l).
    rewrite length_app. change (List.length (flushed [Puts ?s])) with 1%nat.
    destruct (Z.eqb_spec (newlines + 1) limit) as [Heq|Hneq].
    + simpl. lia.
    + specialize (IH EmptyString (newlines + 1)
                    (if 80 <? (if Ascii.eqb c LF then linecnt else linecnt + 1)
                     then 0
                     else if Ascii.eqb c LF then linecnt else linecnt + 1)
                    ltac:(lia)).
      rewrite Nat2Z.inj_add. change (Z.of_nat 1) with 1. lia.
  - destruct (Z.eqb_spec newlines limit) as [Heq|_]; [lia|].
    apply IH. exact Hlt.
Qed.

(** X18: with a limit of at least 1, [cat] writes at most that many texts:
    each newline and each forced flush uses up one unit of the limit. *)
Theorem cat_limit_bounds_flushes :
  forall (limit : Z) (contents : string),
    1 <= limit ->
    Z.of_nat (List.length (flushed (cat_loop limit contents EmptyString 0 0)))
    <= limit.
Proof.
  intros limit contents Hl.
  pose proof (cat_loop_limit_bound limit contents EmptyString 0 0 ltac:(lia)).
  lia.
Qed.

Lemma cat_limit_bounds_flushes_witness :
  Z.of_nat (List.length
              (flushed (cat_loop 3 (text_lines 10 30 "a") EmptyString 0 0)))
  <= 3.
Proof. apply (cat_limit_bounds_flushes 3 (text_lines 10 30 "a")). lia. Defined.

(** Once the count of lines is past the limit, the limit is never met. *)
Lemma cat_loop_limit_passed :
  forall limit1 limit2 rest buffer newlines linecnt,
    limit1 < newlines -> limit2 < newlines ->
    cat_loop limit1 rest buffer newlines linecnt =
    cat_loop limit2 rest buffer newlines linecnt.
Proof.
  intros limit1 limit2 rest. induction rest as [|c rest IH];
    intros buffer newlines linecnt H1 H2; [reflexivity|].
  rewrite !cat_loop_step.
  destruct (Z.eqb_spec (newlines + 1) limit1); [lia|].
  destruct (Z.eqb_spec (newlines + 1) limit2); [lia|].
  destruct (Z.eqb_spec newlines limit1); [lia|].
  destruct (Z.eqb_spec newlines limit2); [lia|].
  destruct (Ascii.eqb c LF || _).
  - f_equal. apply IH; lia.
  - apply IH; lia.
Qed.

(** X19: with limit 0, [cat] writes nothing when the file starts with a
    byte other than a newline; when the file starts with a newline, the
    limit is stepped over and the file is written as if there were no
    limit. *)
Theorem cat_limit_zero :
  forall (c : ascii) (rest : string),
    (Ascii.eqb c LF = false ->
     cat_loop 0 (String c rest) EmptyString 0 0 = [])
    /\ cat_loop 0 (String LF rest) EmptyString 0 0 =
       cat_loop (-1) (String LF rest) EmptyString 0 0.
Proof.
  intros c rest. split.
  - intros Hc. rewrite cat_loop_step. rewrite Hc. reflexivity.
  - rewrite !cat_loop_step. change (Ascii.eqb LF LF) with true. cbn.
    f_equal. apply cat_loop_limit_passed; lia.
Qed.

Lemma cat_loop_no_fclose :
  forall limit rest buffer newlines linecnt,
    filter is_fclose (cat_loop limit rest buffer newlines linecnt) = [].
Proof.
  intros limit rest. induction rest as [|c rest IH];
    intros buffer newlines linecnt; [reflexivity|].
  rewrite cat_loop_step.
  destruct (Ascii.eqb c LF || _).
  - cbn [filter is_fclose]. destruct (newlines + 1 =? limit); [reflexivity|].
    apply IH.
  - destruct (newlines =? limit); [reflexivity|]. apply IH.
Qed.

(** X20: [cat] closes the file it opened exactly once, after everything it
    writes, also when the limit ends the loop early; when the file does not
    open it prints the "File not found" line and closes nothing. *)
Theorem cat_command_closes_file :
  forall (shift_parameter : string -> string * string)
         (strtol : string -> Z * nat) (fopen : string -> option string)
         (sh : SimpleShell) (parameters : string),
    let filename :=
      c_str (absolute_from_relative sh (fst (shift_parameter parameters))) in
    let out := cat_command shift_parameter strtol fopen sh parameters in
    match fopen filename with
    | Some contents =>
        filter is_fclose out = [Fclose filename]
        /\ exists written, out = written ++ [Fclose filename]
    | None => out = [Printf "File not found: %s\r\n" [ArgS filename]]
    end.
Proof.
  intros shift_parameter strtol fopen sh parameters filename out.
  subst out filename.
  destruct (fopen _) as [contents|] eqn:Hopen.
  - rewrite (cat_command_loop shift_parameter strtol fopen sh parameters
               contents Hopen).
    split.
    + rewrite filter_app, cat_loop_no_fclose. reflexivity.
    + eexists. reflexivity.
  - unfold cat_command.
    destruct (shift_parameter parameters) as [tok rest]. simpl in *.
    destruct (shift_parameter rest) as [lim rest1].
    rewrite Hopen. reflexivity.
Qed.

(** ** version *)

Lemma land_bit20 :
  forall dev, Z.land dev 1048576 = if Z.testbit dev 20 then 1048576 else 0.
Proof.
  intros dev. apply Z.bits_inj'. intros n Hn.
  rewrite Z.land_spec. change 1048576 with (2 ^ 20).
  rewrite Z.pow2_bits_eqb by lia.
  destruct (Z.eqb_spec 20 n) as [<-|Hneq].
  - rewrite andb_true_r. destruct (Z.testbit dev 20).
    + rewrite Z.pow2_bits_true by lia. reflexivity.
    + rewrite Z.bits_0. reflexivity.
  - rewrite andb_false_r. destruct (Z.testbit dev 20).
    + rewrite Z.pow2_bits_false by lia. reflexivity.
    + rewrite Z.bits_0. reflexivity.
Qed.

(** X21: the MCU named by [version] is LPC1769 exactly when bit 20 of the
    device type is set; no other bit of the device type matters. *)
Theorem version_command_mcu :
  forall (build build_date : string) (dev SystemCoreClock : Z),
    version_command build build_date dev SystemCoreClock =
    [Printf "Build version: %s, Build date: %s, MCU: %s, System Clock: %ldMHz\r\n"
       [ArgS build; ArgS build_date;
        ArgS (if Z.testbit dev 20 then "LPC1769" else "LPC1768");
        ArgU (SystemCoreClock / 1000000)]].
Proof.
  intros build build_date dev SystemCoreClock.
  unfold version_command, mcu_name. rewrite land_bit20.
  destruct (Z.testbit dev 20); reflexivity.
Qed.

(** ** Heap walk with an empty free list *)

Lemma free_total_all_used :
  forall l, free_total (by_free_list [] l) = 0.
Proof.
  intros l. unfold free_total, by_free_list.
  induction l as [|c l IH]; [reflexivity | exact IH].
Qed.

(** X22: when the free list is empty (its head is the null pointer) and the
    heap is well formed and does not start at address 0, the plain walk
    reports no free byte, and as allocated the heap size less 8 bytes per
    chunk. *)
Theorem heapWalk_empty_free_list :
  forall (mem : Z -> Z) (heapStart heapEnd : Z) (chunks : list (Z * Z))
         (fuel : nat),
    heap_layout mem heapStart heapEnd chunks ->
    0 < heapStart ->
    (List.length chunks <= fuel)%nat ->
    heapWalk fuel mem heapStart 0 heapEnd false =
      Some [Printf "Used Heap Size: %lu\n" [ArgU (heapEnd - heapStart)];
            Printf "Allocated: %lu, Free: %lu\r\n"
              [ArgU (heapEnd - heapStart - 8 * Z.of_nat (List.length chunks));
               ArgU 0]].
Proof.
  intros mem heapStart heapEnd chunks fuel Hlayout Hpos Hfuel.
  rewrite (heapWalk_output mem heapStart 0 heapEnd chunks false fuel
             Hlayout Hfuel).
  destruct Hlayout as [Hstart Hend Hlay Hsz].
  pose proof (totals_split (classify mem 0 chunks)) as Hsplit.
  rewrite sum_adjusted_classify, (laid_out_extent _ _ _ _ Hlay) in Hsplit.
  assert (Hfree : free_total (classify mem 0 chunks) = 0).
  { rewrite (classify_free_list mem heapEnd chunks heapStart 0 []);
      try assumption.
    - apply free_total_all_used.
    - apply free_list_null.
    - constructor.
    - intros x Hx. destruct Hx. }
  rewrite Hfree in *. cbn [lines_if_verbose List.app].
  replace (used_total (classify mem 0 chunks))
    with (heapEnd - heapStart - 8 * Z.of_nat (List.length chunks)) by lia.
  reflexivity.
Qed.

Lemma heapWalk_empty_free_list_witness :
  heapWalk 4 example_mem 4096 0 4184 false =
    Some [Printf "Used Heap Size: %lu\n" [ArgU (4184 - 4096)];
          Printf "Allocated: %lu, Free: %lu\r\n"
            [ArgU (4184 - 4096 - 8 * Z.of_nat (List.length example_chunks));
             ArgU 0]].
Proof.
  apply (heapWalk_empty_free_list example_mem 4096 4184 example_chunks 4
           example_heap_layout); [lia | apply le_n].
Defined.
